(** * Audio synthesiser firmware (main.c): capture, normalisation, playback

    A shallow embedding of the recorder/player in [main.c] and the proofs of
    its numeric contracts.

    - C [int] is a 32-bit two's complement integer; a signed operation whose
      mathematical result leaves the range is undefined behaviour and is
      modelled as the fault [SignedOverflow].
    - [uint16_t] is a [Z] in [0, 65535]; conversions to it reduce modulo 2^16.
    - [float] is IEEE-754 binary32, through the Standard Library's
      [SpecFloat] at precision 24 and [emax] 128.
    - the global [audio_buffer] is a [list Z] read and written by index; an
      access outside the array is the fault [OutOfBounds].
    - the peripherals (GPIO, ADC, PWM, timer) are a trace of events and a
      source of ADC conversions carried by the [world]. *)

From Stdlib Require Import ZArith Lia SpecFloat.
From stdpp Require Import base tactics list.

Local Open Scope Z_scope.

(** ** Faults and the result monad *)

Inductive fault : Set :=
| OutOfBounds      (* array access outside the object *)
| DivByZero        (* integer division by zero *)
| SignedOverflow   (* signed arithmetic leaving the range of [int] *)
| FloatCast.       (* float to integer conversion of an unrepresentable value *)

Inductive result (A : Type) : Type :=
| Ok (a : A)
| Fault (f : fault).

Arguments Ok {A} a.
Arguments Fault {A} f.

Definition bind {A B : Type} (c : result A) (k : A -> result B) : result B :=
  match c with
  | Ok a => k a
  | Fault f => Fault f
  end.

Notation "x <- c ;; k" := (bind c (fun x => k))
  (at level 100, c at next level, right associativity).

(** ** Machine integers *)

Definition INT_MAX : Z := 2147483647.
Definition INT_MIN : Z := -2147483648.
Definition UINT16_MAX : Z := 65535.

Definition in_int (z : Z) : bool := (INT_MIN <=? z) && (z <=? INT_MAX).

Definition int_of (z : Z) : result Z :=
  if in_int z then Ok z else Fault SignedOverflow.

Definition int_add (a b : Z) : result Z := int_of (a + b).
Definition int_sub (a b : Z) : result Z := int_of (a - b).
Definition int_mul (a b : Z) : result Z := int_of (a * b).

(** C division truncates towards zero. *)
Definition int_div (a b : Z) : result Z :=
  if b =? 0 then Fault DivByZero else int_of (Z.quot a b).

(** Conversion of an integer to [uint16_t]. *)
Definition to_u16 (z : Z) : Z := z mod 65536.

(** The values a [uint16_t] object can hold. *)
Definition u16 (z : Z) : Prop := 0 <= z <= UINT16_MAX.

(** ** Arrays of [uint16_t] *)

Abbreviation buffer := (list Z).

Definition read (b : buffer) (i : Z) : result Z :=
  if i <? 0 then Fault OutOfBounds
  else match b !! Z.to_nat i with
       | Some v => Ok v
       | None => Fault OutOfBounds
       end.

Definition write (b : buffer) (i : Z) (v : Z) : result buffer :=
  if (0 <=? i) && (i <? Z.of_nat (length b))
  then Ok (<[Z.to_nat i := v]> b)
  else Fault OutOfBounds.

(** ** Loops *)

(** The body of a [for] loop run at each index of [idx] in turn, threading
    the loop-carried state; a fault in the body ends the run. *)
Fixpoint for_each {S : Type} (idx : list Z) (body : Z -> S -> result S) (s : S)
  : result S :=
  match idx with
  | [] => Ok s
  | i :: rest => s' <- body i s ;; for_each rest body s'
  end.

(** [for (int i = 0; i < n; i++) body]: here [i < n <= INT_MAX], so the
    increment cannot overflow. *)
Definition for_upto {S : Type} (n : Z) (body : Z -> S -> result S) (s : S)
  : result S :=
  for_each (seqZ 0 n) body s.

(** ** binary32 *)

Module Float32.

Definition prec : Z := 24.
Definition emax : Z := 128.

Definition float := spec_float.

Definition mul : float -> float -> float := SFmul prec emax.
Definition add : float -> float -> float := SFadd prec emax.
Definition sub : float -> float -> float := SFsub prec emax.

(** Conversion of an [int] to [float], rounding to nearest even. *)
Definition of_int (z : Z) : float := binary_normalize prec emax z 0 false.

(** The literal [1.0f]. *)
Definition one : float := S754_finite false 8388608 (-23).

(** The literal [0.1f]: the binary32 number nearest to one tenth,
    13421773 * 2^-27 (bit pattern 0x3DCCCCCD). *)
Definition tenth : float := S754_finite false 13421773 (-27).

(** Integral part of a finite float (truncation towards zero) of
    magnitude [m * 2^e]. *)
Definition trunc_mag (m : positive) (e : Z) : Z := Z.shiftl (Z.pos m) e.

(** The cast [(uint16_t) x]: the value is truncated towards zero; when the
    integral part is not a [uint16_t] value the behaviour is undefined. *)
Definition to_uint16 (x : float) : result Z :=
  match x with
  | S754_zero _ => Ok 0
  | S754_finite s m e =>
      let t := trunc_mag m e in
      if s then (if t =? 0 then Ok 0 else Fault FloatCast)
      else if t <=? UINT16_MAX then Ok t else Fault FloatCast
  | S754_infinity _ | S754_nan => Fault FloatCast
  end.

(** The value of a non-negative float scaled by 2^100, an integer for
    every exponent from -100 up. *)
Definition sval (x : float) : Z :=
  match x with
  | S754_finite false m e => Z.pos m * 2 ^ (e + 100)
  | _ => 0
  end.

(** [x] is a zero or a positive finite number of exponent at least [lo]. *)
Definition pfin (lo : Z) (x : float) : Prop :=
  match x with
  | S754_zero _ => True
  | S754_finite false _ e => lo <= e
  | _ => False
  end.

End Float32.

(** ** Signal conditioning *)

(** [low_pass_filter]: both samples are promoted to [int] and converted to
    [float]; the sum is cast back to [uint16_t]. *)
Definition low_pass_filter (current_sample prev_sample : Z)
    (alpha : Float32.float) : result Z :=
  Float32.to_uint16
    (Float32.add
       (Float32.mul alpha (Float32.of_int current_sample))
       (Float32.mul (Float32.sub Float32.one alpha)
                    (Float32.of_int prev_sample))).

(** [normalize_audio]: the first loop finds the peak, the second rescales
    every entry in place; [buffer[i] * 1023] and the division are [int]
    operations, the assignment converts back to [uint16_t]. The value
    returned is the content of the array after the call. *)
Definition normalize_audio (buf : buffer) (len : Z) : result buffer :=
  max_val <- for_upto len
               (fun i max_val =>
                  bi <- read buf i ;;
                  Ok (if bi >? max_val then bi else max_val)) 0 ;;
  if max_val =? 0 then Ok buf
  else
    for_upto len
      (fun i b =>
         bi <- read b i ;;
         p <- int_mul bi 1023 ;;
         q <- int_div p max_val ;;
         write b i (to_u16 q)) buf.

(** ** Build-time configuration *)

(** The macros [AUDIO_DURATION_SEC] and [SAMPLE_RATE]; every function below
    is stated for an arbitrary build, [bitdoglab] is the one of the source. *)
Record config : Set := {
  AUDIO_DURATION_SEC : Z;
  SAMPLE_RATE : Z
}.

Definition MAX_SAMPLES (cfg : config) : Z :=
  AUDIO_DURATION_SEC cfg * SAMPLE_RATE cfg.

Definition bitdoglab : config :=
  {| AUDIO_DURATION_SEC := 5; SAMPLE_RATE := 16000 |}.

(** The argument [1000000 / SAMPLE_RATE] of every [sleep_us] call, a
    constant expression folded at build time. *)
Definition tick_us (cfg : config) : Z := Z.quot 1000000 (SAMPLE_RATE cfg).

Definition LED_GREEN_PIN : Z := 11.
Definition LED_RED_PIN : Z := 13.
Definition BUZZER_LEFT : Z := 10.
Definition BUZZER_RIGHT : Z := 21.

(** [moving_average_filter]: [index - window] and [index + window] are [int]
    expressions, and so are [sum += buffer[i]], [count++] and [i++]. *)
Definition moving_average_body (cfg : config) (buf : buffer) (i : Z)
    (acc : Z * Z) : result (Z * Z) :=
  let (sum, count) := acc in
  if (0 <=? i) && (i <? MAX_SAMPLES cfg) then
    bi <- read buf i ;;
    sum' <- int_add sum bi ;;
    count' <- int_add count 1 ;;
    Ok (sum', count')
  else Ok (sum, count).

(** One turn of the loop: the body, then [i++]. *)
Definition moving_average_iter (cfg : config) (buf : buffer) (i : Z)
    (acc : Z * Z) : result (Z * Z) :=
  acc' <- moving_average_body cfg buf i acc ;;
  _ <- int_add i 1 ;;
  Ok acc'.

(** The loop of [moving_average_filter], over the indices from
    [index - window] to [index + window]; the result is [(sum, count)] at
    loop exit. *)
Definition moving_average_loop (cfg : config) (buf : buffer)
    (index window : Z) : result (Z * Z) :=
  lo <- int_sub index window ;;
  hi <- int_add index window ;;
  for_each (seqZ lo (hi - lo + 1)) (moving_average_iter cfg buf) (0, 0).

Definition moving_average_filter (cfg : config) (buf : buffer)
    (index window : Z) : result Z :=
  acc <- moving_average_loop cfg buf index window ;;
  q <- int_div (fst acc) (snd acc) ;;
  Ok (to_u16 q).

(** ** The board *)

Inductive event : Set :=
| EvGpioPut (pin : Z) (value : bool)
| EvPwmLevel (slice chan : Z) (level : Z)
| EvSleepUs (us : Z).

(** The state the firmware acts on: the ADC as the sequence of its
    conversion results with the number already consumed, the global
    [audio_buffer], and the peripheral calls made so far, oldest first. *)
Record world : Type := {
  adc_source : nat -> Z;
  adc_taken : nat;
  audio_buffer : buffer;
  trace : list event
}.

Definition emit (e : event) (w : world) : world :=
  {| adc_source := adc_source w; adc_taken := adc_taken w;
     audio_buffer := audio_buffer w; trace := trace w ++ [e] |}.

Definition set_audio_buffer (b : buffer) (w : world) : world :=
  {| adc_source := adc_source w; adc_taken := adc_taken w;
     audio_buffer := b; trace := trace w |}.

Definition gpio_put (pin : Z) (value : bool) : world -> world :=
  emit (EvGpioPut pin value).

Definition sleep_us (us : Z) : world -> world := emit (EvSleepUs us).

(** [adc_read] returns a [uint16_t]. *)
Definition adc_read (w : world) : Z * world :=
  (to_u16 (adc_source w (adc_taken w)),
   {| adc_source := adc_source w; adc_taken := S (adc_taken w);
      audio_buffer := audio_buffer w; trace := trace w |}).

(** The SDK's mapping of a GPIO to its PWM slice and channel. *)
Definition pwm_gpio_to_slice_num (gpio : Z) : Z := Z.land (Z.shiftr gpio 1) 7.
Definition pwm_gpio_to_channel (gpio : Z) : Z := Z.land gpio 1.

Definition pwm_set_chan_level (slice chan level : Z) : world -> world :=
  emit (EvPwmLevel slice chan level).

Definition play_sample (buzzer_pin value : Z) (w : world) : world :=
  let slice := pwm_gpio_to_slice_num buzzer_pin in
  pwm_set_chan_level slice (pwm_gpio_to_channel buzzer_pin) value w.

(** ** Capture and playback *)

(** One iteration of the loop of [grava_audio]; the loop carries [prev]
    and the world. *)
Definition grava_audio_body (cfg : config) (alpha : Float32.float) (i : Z)
    (st : Z * world) : result (Z * world) :=
  let (prev, w) := st in
  let (sample, w) := adc_read w in
  prev <- low_pass_filter sample prev alpha ;;
  b <- write (audio_buffer w) i prev ;;
  let w := set_audio_buffer b w in
  let w := sleep_us (tick_us cfg) w in
  Ok (prev, w).

(** [grava_audio] up to the end of its loop: the buffer as the filter
    leaves it. *)
Definition grava_audio_loop (cfg : config) (w : world) : result world :=
  let w := gpio_put LED_RED_PIN true w in
  let prev := 0 in
  let alpha := Float32.tenth in
  st <- for_upto (MAX_SAMPLES cfg) (grava_audio_body cfg alpha) (prev, w) ;;
  Ok (snd st).

Definition grava_audio (cfg : config) (w : world) : result world :=
  w <- grava_audio_loop cfg w ;;
  b <- normalize_audio (audio_buffer w) (MAX_SAMPLES cfg) ;;
  let w := set_audio_buffer b w in
  Ok (gpio_put LED_RED_PIN false w).

Definition reproduz_audio_body (cfg : config) (i : Z) (w : world)
  : result world :=
  l <- read (audio_buffer w) i ;;
  let w := play_sample BUZZER_LEFT l w in
  r <- read (audio_buffer w) i ;;
  let w := play_sample BUZZER_RIGHT r w in
  Ok (sleep_us (tick_us cfg) w).

Definition reproduz_audio (cfg : config) (w : world) : result world :=
  let w := gpio_put LED_GREEN_PIN true w in
  w <- for_upto (MAX_SAMPLES cfg) (reproduz_audio_body cfg) w ;;
  let w := play_sample BUZZER_LEFT 0 w in
  let w := play_sample BUZZER_RIGHT 0 w in
  Ok (gpio_put LED_GREEN_PIN false w).


(** ** Set-up and the main loop *)

Definition BTN_A_PIN : Z := 5.
Definition BTN_B_PIN : Z := 6.
Definition MIC_PIN : Z := 28.

Inductive gpio_function : Set := GPIO_FUNC_PWM.

(** The SDK calls of [main] and of the set-up functions, with their
    arguments; [GpioGet] carries the level read, and the calls made by
    capture and playback are carried as [Core]. *)
Inductive sdk_call : Set :=
| StdioInitAll
| GpioInit (pin : Z)
| GpioSetDir (pin : Z) (out : bool)
| GpioPullUp (pin : Z)
| GpioSetFunction (pin : Z) (fn : gpio_function)
| AdcInit
| AdcGpioInit (pin : Z)
| AdcSelectInput (input : Z)
| PwmInit (slice : Z) (clkdiv : Float32.float) (start : bool)
| PwmSetWrap (slice wrap : Z)
| GpioGet (pin : Z) (level : bool)
| SleepMs (ms : Z)
| Core (e : event).

(** The whole board: the part capture and playback act on, the levels the
    input pins will show at each [gpio_get] with the number of reads done,
    and every SDK call made so far, oldest first. *)
Record board : Type := {
  core : world;
  pins : nat -> Z -> bool;
  polls : nat;
  calls : list sdk_call
}.

Definition sdk (cs : list sdk_call) (b : board) : board :=
  {| core := core b; pins := pins b; polls := polls b;
     calls := calls b ++ cs |}.

(** The events a run appended to the trace of the world it started from. *)
Definition new_events (w w' : world) : list event :=
  drop (length (trace w)) (trace w').

(** The board after its capture/playback part went from [core b] to [w']:
    the new events enter the log of calls in order. *)
Definition with_core (w' : world) (b : board) : board :=
  {| core := w'; pins := pins b; polls := polls b;
     calls := calls b ++ (Core <$> new_events (core b) w') |}.

(** A function of the capture/playback model run on the board. *)
Definition on_core (f : world -> result world) (b : board) : result board :=
  w' <- f (core b) ;;
  Ok (with_core w' b).

Definition gpio_get (pin : Z) (b : board) : bool * board :=
  let level := pins b (polls b) pin in
  (level,
   {| core := core b; pins := pins b; polls := S (polls b);
      calls := calls b ++ [GpioGet pin level] |}).

Definition sleep_ms (ms : Z) : board -> board := sdk [SleepMs ms].

Definition gpio_start : board -> board :=
  sdk [GpioInit LED_GREEN_PIN; GpioSetDir LED_GREEN_PIN true;
       GpioInit LED_RED_PIN; GpioSetDir LED_RED_PIN true;
       GpioInit BTN_A_PIN; GpioSetDir BTN_A_PIN false; GpioPullUp BTN_A_PIN;
       GpioInit BTN_B_PIN; GpioSetDir BTN_B_PIN false; GpioPullUp BTN_B_PIN;
       GpioInit BUZZER_LEFT; GpioSetFunction BUZZER_LEFT GPIO_FUNC_PWM;
       GpioInit BUZZER_RIGHT; GpioSetFunction BUZZER_RIGHT GPIO_FUNC_PWM].

Definition adc_setup : board -> board :=
  sdk [AdcInit; AdcGpioInit MIC_PIN; AdcSelectInput 2].

(** [pwm_setup]: the default configuration with the clock divider set to
    1.0f, the slice started, its wrap set to 1023 and the pin's channel
    put at level 0. The last call is the one [play_sample] makes. *)
Definition pwm_setup (buzzer_pin : Z) (b : board) : board :=
  let slice_num := pwm_gpio_to_slice_num buzzer_pin in
  let b := sdk [PwmInit slice_num Float32.one true] b in
  let b := sdk [PwmSetWrap slice_num 1023] b in
  with_core (pwm_set_chan_level slice_num
               (pwm_gpio_to_channel buzzer_pin) 0 (core b)) b.

(** [main] up to its loop. *)
Definition main_setup (b : board) : board :=
  let b := sdk [StdioInitAll] b in
  let b := gpio_start b in
  let b := adc_setup b in
  let b := pwm_setup BUZZER_LEFT b in
  pwm_setup BUZZER_RIGHT b.

(** One turn of the [while (true)] loop of [main]: a button is pressed
    when its pin reads low. *)
Definition main_turn (cfg : config) (b : board) : result board :=
  let (a, b) := gpio_get BTN_A_PIN b in
  b <- (if negb a
        then on_core (grava_audio cfg) (sleep_ms 200 b)
        else Ok b) ;;
  let (p, b) := gpio_get BTN_B_PIN b in
  if negb p
  then on_core (reproduz_audio cfg) (sleep_ms 200 b)
  else Ok b.

Fixpoint main_loop (cfg : config) (turns : nat) (b : board) : result board :=
  match turns with
  | O => Ok b
  | S turns' => b' <- main_turn cfg b ;; main_loop cfg turns' b'
  end.

(** [main] never returns; this is the board after set-up and the given
    number of turns of its loop. *)
Definition main (cfg : config) (turns : nat) (b : board) : result board :=
  main_loop cfg turns (main_setup b).

(** * Specification-level notions *)

(** The largest entry of a buffer of unsigned samples (0 for the empty
    buffer). *)
Definition buffer_max (b : buffer) : Z := foldr Z.max 0 b.

(** A buffer as the C object holds it: every cell a [uint16_t] value. *)
Definition wf_buffer (b : buffer) : Prop := Forall u16 b.

(** The output resolution ceiling, the PWM wrap value. *)
Definition R : Z := 1023.

(** Every entry is a Sample of the output range. *)
Definition in_output_range (b : buffer) : Prop :=
  Forall (fun v => 0 <= v <= R) b.

(** The rescaling of one sample, [floor (v * R / max_val)]. *)
Definition rescale (max_val v : Z) : Z := v * R / max_val.

(** The global array is declared with [MAX_SAMPLES] cells. *)
Definition wf_world (cfg : config) (w : world) : Prop :=
  Z.of_nat (length (audio_buffer w)) = MAX_SAMPLES cfg.

(** The next [n] conversions the ADC will deliver, as [adc_read] returns
    them. *)
Definition adc_window (w : world) (n : nat) : list Z :=
  (fun k => to_u16 (adc_source w k)) <$> seq (adc_taken w) n.

(** The filtered sequence of a run of raw readings: each value is the
    filter applied to the reading and to the previous filtered value,
    which is [prev] for the first reading. *)
Fixpoint filter_run (alpha : Float32.float) (prev : Z) (raws : list Z)
  : result (list Z) :=
  match raws with
  | [] => Ok []
  | raw :: rest =>
      filtered <- low_pass_filter raw prev alpha ;;
      tl <- filter_run alpha filtered rest ;;
      Ok (filtered :: tl)
  end.

(** The PWM write [play_sample] issues for a pin. *)
Definition pwm_write (pin value : Z) : event :=
  EvPwmLevel (pwm_gpio_to_slice_num pin) (pwm_gpio_to_channel pin) value.

(** What playback does with one sample: the same level on both buzzers,
    then one tick of the sample clock. *)
Definition play_step (cfg : config) (v : Z) : list event :=
  [pwm_write BUZZER_LEFT v; pwm_write BUZZER_RIGHT v; EvSleepUs (tick_us cfg)].

(** Everything [reproduz_audio] does with a buffer: the green LED on, one
    step per sample, both buzzers silenced, the LED off. *)
Definition playback_events (cfg : config) (b : buffer) : list event :=
  [EvGpioPut LED_GREEN_PIN true]
  ++ flat_map (play_step cfg) b
  ++ [pwm_write BUZZER_LEFT 0; pwm_write BUZZER_RIGHT 0;
      EvGpioPut LED_GREEN_PIN false].

(** The PWM writes of a trace, in order, as (slice, channel, level). *)
Definition pwm_writes (t : list event) : list (Z * Z * Z) :=
  omap (fun e => match e with
                 | EvPwmLevel s c v => Some (s, c, v)
                 | _ => None
                 end) t.

(** The level a PWM channel is left at by a run of writes: the last one
    written to it, if any. *)
Definition last_level (slice chan : Z) (ws : list (Z * Z * Z)) : option Z :=
  last (omap (fun x => if (x.1.1 =? slice) && (x.1.2 =? chan)
                       then Some x.2 else None) ws).

(** Everything [grava_audio] does besides reading the ADC, for a buffer of
    [n] cells: the red LED on, one tick per sample, the LED off. *)
Definition record_events (cfg : config) (n : nat) : list event :=
  [EvGpioPut LED_RED_PIN true]
  ++ replicate n (EvSleepUs (tick_us cfg))
  ++ [EvGpioPut LED_RED_PIN false].

(** What the calls made so far ([seen], newest first) have set up. *)
Definition gpio_initialised (pin : Z) (seen : list sdk_call) : bool :=
  existsb (fun c => match c with GpioInit q => q =? pin | _ => false end) seen.

Definition gpio_pulled_up (pin : Z) (seen : list sdk_call) : bool :=
  existsb (fun c => match c with GpioPullUp q => q =? pin | _ => false end)
          seen.

(** The direction last set for a pin. *)
Definition gpio_dir (pin : Z) (seen : list sdk_call) : option bool :=
  match find (fun c => match c with GpioSetDir q _ => q =? pin | _ => false end)
             seen with
  | Some (GpioSetDir _ out) => Some out
  | _ => None
  end.

(** Some pin switched to the PWM function drives this slice and channel. *)
Definition pwm_routed (slice chan : Z) (seen : list sdk_call) : bool :=
  existsb (fun c => match c with
                    | GpioSetFunction q GPIO_FUNC_PWM =>
                        (pwm_gpio_to_slice_num q =? slice)
                        && (pwm_gpio_to_channel q =? chan)
                    | _ => false
                    end) seen.

Definition pwm_started (slice : Z) (seen : list sdk_call) : bool :=
  existsb (fun c => match c with
                    | PwmInit s _ start => (s =? slice) && start
                    | _ => false
                    end) seen.

(** The wrap last set for a slice. *)
Definition pwm_wrap (slice : Z) (seen : list sdk_call) : option Z :=
  match find (fun c => match c with PwmSetWrap s _ => s =? slice | _ => false end)
             seen with
  | Some (PwmSetWrap _ wrap) => Some wrap
  | _ => None
  end.

(** A PWM level is written to a routed channel of a started slice and lies
    between 0 and the slice's wrap. *)
Definition pwm_call_ok (seen : list sdk_call) (c : sdk_call) : bool :=
  match c with
  | Core (EvPwmLevel slice chan level) =>
      pwm_routed slice chan seen && pwm_started slice seen
      && match pwm_wrap slice seen with
         | Some wrap => (0 <=? level) && (level <=? wrap)
         | None => false
         end
  | _ => true
  end.

(** A pin is driven only once initialised and set as an output, and read
    only once initialised, set as an input and pulled up. *)
Definition gpio_call_ok (seen : list sdk_call) (c : sdk_call) : bool :=
  match c with
  | Core (EvGpioPut pin _) =>
      gpio_initialised pin seen
      && match gpio_dir pin seen with Some out => out | None => false end
  | GpioGet pin _ =>
      gpio_initialised pin seen && gpio_pulled_up pin seen
      && match gpio_dir pin seen with Some out => negb out | None => false end
  | _ => true
  end.

(** Every call of a log passes the check against the calls before it. *)
Fixpoint log_ok (ok : list sdk_call -> sdk_call -> bool)
    (seen cs : list sdk_call) : bool :=
  match cs with
  | [] => true
  | c :: rest => ok seen c && log_ok ok (c :: seen) rest
  end.

(** The calls of [main] before its loop. *)
Definition setup_calls : list sdk_call :=
  [StdioInitAll;
   GpioInit LED_GREEN_PIN; GpioSetDir LED_GREEN_PIN true;
   GpioInit LED_RED_PIN; GpioSetDir LED_RED_PIN true;
   GpioInit BTN_A_PIN; GpioSetDir BTN_A_PIN false; GpioPullUp BTN_A_PIN;
   GpioInit BTN_B_PIN; GpioSetDir BTN_B_PIN false; GpioPullUp BTN_B_PIN;
   GpioInit BUZZER_LEFT; GpioSetFunction BUZZER_LEFT GPIO_FUNC_PWM;
   GpioInit BUZZER_RIGHT; GpioSetFunction BUZZER_RIGHT GPIO_FUNC_PWM;
   AdcInit; AdcGpioInit MIC_PIN; AdcSelectInput 2;
   PwmInit 5 Float32.one true; PwmSetWrap 5 1023; Core (pwm_write BUZZER_LEFT 0);
   PwmInit 2 Float32.one true; PwmSetWrap 2 1023;
   Core (pwm_write BUZZER_RIGHT 0)].

(** The capture/playback events of a log of calls, in order. *)
Definition core_events (cs : list sdk_call) : list event :=
  omap (fun c => match c with Core e => Some e | _ => None end) cs.

(** The calls the loop of [main] makes: polls of the two buttons, the
    debounce sleep, LED writes and ticks, and PWM levels of the output
    range on the two buzzer channels. *)
Definition loop_call (c : sdk_call) : Prop :=
  match c with
  | GpioGet pin _ => pin = BTN_A_PIN \/ pin = BTN_B_PIN
  | SleepMs _ => True
  | Core (EvGpioPut pin _) => pin = LED_RED_PIN \/ pin = LED_GREEN_PIN
  | Core (EvSleepUs _) => True
  | Core (EvPwmLevel slice chan level) =>
      ((slice = 5 /\ chan = 0) \/ (slice = 2 /\ chan = 1))
      /\ 0 <= level <= R
  | _ => False
  end.

(** What the set-up of [main] leaves in force: both buzzer channels routed
    to started slices of wrap [R], the LED pins initialised outputs, the
    button pins initialised inputs with their pull-ups. *)
Definition configured (seen : list sdk_call) : Prop :=
  (pwm_routed 5 0 seen = true /\ pwm_started 5 seen = true
   /\ pwm_wrap 5 seen = Some R)
  /\ (pwm_routed 2 1 seen = true /\ pwm_started 2 seen = true
      /\ pwm_wrap 2 seen = Some R)
  /\ (gpio_initialised LED_RED_PIN seen = true
      /\ gpio_dir LED_RED_PIN seen = Some true)
  /\ (gpio_initialised LED_GREEN_PIN seen = true
      /\ gpio_dir LED_GREEN_PIN seen = Some true)
  /\ (gpio_initialised BTN_A_PIN seen = true
      /\ gpio_pulled_up BTN_A_PIN seen = true
      /\ gpio_dir BTN_A_PIN seen = Some false)
  /\ (gpio_initialised BTN_B_PIN seen = true
      /\ gpio_pulled_up BTN_B_PIN seen = true
      /\ gpio_dir BTN_B_PIN seen = Some false).

(** Pin levels with both buttons released (pulled up) at every poll. *)
Definition released : nat -> Z -> bool := fun _ _ => true.

(** The conversion range of the board's 12-bit ADC. *)
Definition ADC_MAX : Z := 4095.

(** An ADC held at full scale. *)
Definition full_scale_adc : nat -> Z := fun _ => ADC_MAX.

(** The entries of [buf] whose index lies in
    [index - window, index + window] and in [0, MAX_SAMPLES - 1]. *)
Definition in_window (cfg : config) (i : Z) : bool :=
  (0 <=? i) && (i <? MAX_SAMPLES cfg).

Definition window_pick (cfg : config) (buf : buffer) (i : Z) : option Z :=
  if in_window cfg i then buf !! Z.to_nat i else None.

Definition window_entries (cfg : config) (buf : buffer) (index window : Z)
  : list Z :=
  omap (window_pick cfg buf) (seqZ (index - window) (2 * window + 1)).

Definition sum_list_Z (l : list Z) : Z := foldr Z.add 0 l.

(** The integer-truncated arithmetic mean of the window. *)
Definition window_mean (cfg : config) (buf : buffer) (index window : Z) : Z :=
  let es := window_entries cfg buf index window in
  Z.quot (sum_list_Z es) (Z.of_nat (length es)).

(** The board at power-on: the global array zero-initialised, nothing read
    from the ADC [src] yet, no peripheral call made. *)
Definition power_on (cfg : config) (src : nat -> Z) : world :=
  {| adc_source := src; adc_taken := 0;
     audio_buffer := replicate (Z.to_nat (MAX_SAMPLES cfg)) 0;
     trace := [] |}.

(** A build with a three-sample buffer, for the worked scenarios. *)
Definition test_config : config :=
  {| AUDIO_DURATION_SEC := 1; SAMPLE_RATE := 3 |}.

(** A build with an eight-sample buffer. *)
Definition test_config8 : config :=
  {| AUDIO_DURATION_SEC := 1; SAMPLE_RATE := 8 |}.

(** The board at reset: the world at power-on, the given pin levels, no
    call made. *)
Definition reset (cfg : config) (src : nat -> Z) (levels : nat -> Z -> bool)
  : board :=
  {| core := power_on cfg src; pins := levels; polls := 0; calls := [] |}.

(** * Proof automation *)

(** [holds] closes [true = b] and [fails] closes [false = b] for a boolean
    [b] built from integer comparisons decided by the context. *)
Ltac holds :=
  symmetry; rewrite ?andb_true_iff, ?Z.leb_le, ?Z.ltb_lt, ?Z.eqb_eq; lia.
Ltac fails :=
  symmetry; rewrite ?andb_false_iff, ?Z.leb_gt, ?Z.ltb_ge, ?Z.eqb_neq; lia.

(** [loop_call_tac] proves that a concrete call is one of the loop's. *)
Ltac loop_call_tac :=
  cbv [loop_call pwm_write pwm_gpio_to_slice_num pwm_gpio_to_channel
       BUZZER_LEFT BUZZER_RIGHT LED_RED_PIN LED_GREEN_PIN BTN_A_PIN BTN_B_PIN R];
  first [exact I | right; reflexivity | left; reflexivity
        | split; [first [left; split; reflexivity | right; split; reflexivity]
                 | lia]].


(** * Facts about binary32 rounding *)

Module Float32Facts.
Import Float32.

Lemma sval_nonneg x : 0 <= sval x.
Proof.
  destruct x as [| | |[] m e]; simpl; lia.
Qed.

Lemma pfin_weaken lo lo' x : lo' <= lo -> pfin lo x -> pfin lo' x.
Proof. destruct x as [| | |[] m e]; simpl; auto; lia. Qed.

Lemma digits2_pos_bounds p :
  2 ^ (Z.pos (digits2_pos p) - 1) <= Z.pos p < 2 ^ Z.pos (digits2_pos p).
Proof.
  induction p as [p IH|p IH|]; simpl digits2_pos.
  - rewrite Pos2Z.inj_succ.
    replace (Z.succ (Z.pos (digits2_pos p)) - 1) with (Z.succ (Z.pos (digits2_pos p) - 1)) by lia.
    rewrite !Z.pow_succ_r by lia. lia.
  - rewrite Pos2Z.inj_succ.
    replace (Z.succ (Z.pos (digits2_pos p)) - 1) with (Z.succ (Z.pos (digits2_pos p) - 1)) by lia.
    rewrite !Z.pow_succ_r by lia. lia.
  - simpl. lia.
Qed.

Lemma shr_1_m mrs : 0 <= shr_m mrs -> shr_m (shr_1 mrs) = shr_m mrs / 2.
Proof.
  destruct mrs as [m r s]; simpl. intros Hm.
  destruct m as [|[q|q|]|q]; cbn [shr_m]; try lia.
  - reflexivity.
  - apply Z.div_unique with 1; lia.
  - apply Z.div_unique with 0; lia.
  - reflexivity.
Qed.

Lemma iter_shr_1_m p : forall mrs,
  0 <= shr_m mrs ->
  shr_m (SpecFloat.iter_pos shr_1 p mrs) = shr_m mrs / 2 ^ Z.pos p.
Proof.
  assert (Hnn : forall q mrs, 0 <= shr_m mrs ->
            shr_m mrs / 2 ^ Z.pos q >= 0).
  { intros q mrs H. apply Z.le_ge, Z.div_pos; lia. }
  induction p as [p IH|p IH|]; intros mrs Hm; simpl SpecFloat.iter_pos.
  - assert (H1 : 0 <= shr_m (shr_1 mrs)).
    { rewrite shr_1_m by done. apply Z.div_pos; lia. }
    assert (E : 2 ^ Z.pos p~1 = 2 * (2 ^ Z.pos p * 2 ^ Z.pos p)).
    { rewrite <- Z.pow_add_r, <- Z.pow_succ_r by lia. f_equal. lia. }
    rewrite IH.
    2:{ rewrite IH by done. specialize (Hnn p (shr_1 mrs) H1). lia. }
    rewrite IH, shr_1_m by done.
    rewrite E, !Z.div_div by lia. reflexivity.
  - assert (E : 2 ^ Z.pos p~0 = 2 ^ Z.pos p * 2 ^ Z.pos p).
    { rewrite <- Z.pow_add_r by lia. f_equal. lia. }
    rewrite IH.
    2:{ rewrite IH by done. specialize (Hnn p mrs Hm). lia. }
    rewrite IH by done.
    rewrite E, Z.div_div by lia. reflexivity.
  - rewrite shr_1_m by done. reflexivity.
Qed.

(** [shr] divides the mantissa by the power of two it raises the
    exponent by. *)
Lemma shr_spec mrs e n :
  0 <= shr_m mrs ->
  let k := Z.max n 0 in
  shr_m (fst (shr mrs e n)) = shr_m mrs / 2 ^ k /\ snd (shr mrs e n) = e + k.
Proof.
  intros Hm k. subst k. unfold shr. destruct n as [|p|p]; simpl fst; simpl snd.
  - rewrite Z.max_id. simpl. rewrite Z.div_1_r. lia.
  - rewrite iter_shr_1_m by done. rewrite Z.max_l by lia. lia.
  - rewrite Z.max_r by lia. simpl. rewrite Z.div_1_r. lia.
Qed.

Lemma round_nearest_even_le m l :
  m <= round_nearest_even m l <= m + 1.
Proof.
  destruct l as [|[]]; simpl; try lia. destruct (Z.even m); lia.
Qed.

Lemma shl_align_spec mx ex ex' :
  snd (shl_align mx ex ex') = Z.min ex ex' /\
  Z.pos (fst (shl_align mx ex ex')) = Z.pos mx * 2 ^ (ex - Z.min ex ex').
Proof.
  unfold shl_align. destruct (ex' - ex) as [|d|d] eqn:E; simpl fst; simpl snd.
  - replace (Z.min ex ex') with ex by lia. rewrite Z.sub_diag. simpl. lia.
  - replace (Z.min ex ex') with ex by lia. rewrite Z.sub_diag. simpl. lia.
  - replace (Z.min ex ex') with ex' by lia.
    replace (ex - ex') with (Z.pos d) by lia.
    split; [reflexivity|].
    clear E. revert mx. induction d as [|d IH] using Pos.peano_ind; intros mx.
    + simpl. lia.
    + rewrite Pos.iter_succ, Pos2Z.inj_xO, IH, Pos2Z.inj_succ, Z.pow_succ_r by lia. lia.
Qed.

Lemma fexp_normal e : -125 <= e -> fexp prec emax e = e - 24.
Proof. unfold fexp, emin, prec, emax. lia. Qed.

(** First stage of rounding: the mantissa is cut to 24 bits and moved
    to a neighbour. [k] is the number of bits dropped. *)
Lemma shr_fexp_round mx ex :
  -100 <= ex ->
  let k := Z.max (Z.pos (digits2_pos mx) - 24) 0 in
  let st := shr_fexp prec emax (Z.pos mx) ex loc_Exact in
  let m2 := round_nearest_even (shr_m (fst st)) (loc_of_shr_record (fst st)) in
  snd st = ex + k /\ 0 <= m2 <= 2 ^ 24 /\
  m2 * 2 ^ k * 2 ^ 23 <= Z.pos mx * (2 ^ 23 + 1).
Proof.
  intros Hex k st m2.
  pose proof (digits2_pos_bounds mx) as [Hlo Hhi].
  set (d := Z.pos (digits2_pos mx)) in *.
  assert (Hd : 1 <= d) by (unfold d; lia).
  assert (Hst : st = shr (shr_record_of_loc (Z.pos mx) loc_Exact) ex (d - 24)).
  { unfold st, shr_fexp. simpl Zdigits2. fold d.
    rewrite fexp_normal by lia. f_equal. lia. }
  destruct (Z_le_gt_dec (d - 24) 0) as [Hn|Hn].
  - (* nothing is dropped: the mantissa is kept as it is *)
    assert (Hk : k = 0) by (unfold k; fold d; lia).
    assert (Est : st = (shr_record_of_loc (Z.pos mx) loc_Exact, ex)).
    { rewrite Hst. unfold shr. destruct (d - 24); try reflexivity; lia. }
    assert (Em : m2 = Z.pos mx) by (unfold m2; rewrite Est; reflexivity).
    assert (Hlt : Z.pos mx < 2 ^ 24).
    { eapply Z.lt_le_trans; [exact Hhi|]. apply Z.pow_le_mono_r; lia. }
    rewrite Est, Em, Hk. simpl snd. rewrite Z.pow_0_r. lia.
  - assert (Hk : k = d - 24) by (unfold k; fold d; lia).
    pose proof (shr_spec (shr_record_of_loc (Z.pos mx) loc_Exact) ex (d - 24))
      as Hs. cbv zeta in Hs. specialize (Hs ltac:(simpl; lia)).
    rewrite <- Hst in Hs. change (shr_m (shr_record_of_loc (Z.pos mx) loc_Exact))
      with (Z.pos mx) in Hs.
    replace (Z.max (d - 24) 0) with k in Hs by lia.
    destruct Hs as [Hm He].
    pose proof (round_nearest_even_le (shr_m (fst st)) (loc_of_shr_record (fst st)))
      as Hr. fold m2 in Hr. rewrite Hm in Hr.
    assert (Hk0 : 0 < k) by lia.
    assert (Hpk : 0 < 2 ^ k) by (apply Z.pow_pos_nonneg; lia).
    assert (Hsplit : 2 ^ d = 2 ^ k * 2 ^ 24).
    { rewrite <- Z.pow_add_r by lia. f_equal. lia. }
    assert (Hsplit' : 2 ^ (d - 1) = 2 ^ k * 2 ^ 23).
    { rewrite <- Z.pow_add_r by lia. f_equal. lia. }
    assert (Hq : Z.pos mx / 2 ^ k < 2 ^ 24).
    { apply Z.div_lt_upper_bound; lia. }
    assert (Hq0 : 0 <= Z.pos mx / 2 ^ k) by (apply Z.div_pos; lia).
    pose proof (Z.mul_div_le (Z.pos mx) (2 ^ k) Hpk) as Hfl.
    split; [exact He|]. split; [lia|].
    assert (m2 * 2 ^ k <= Z.pos mx + 2 ^ k) by nia.
    nia.
Qed.

Lemma Zdigits2_le_25 m : 0 <= m <= 2 ^ 24 -> Zdigits2 m <= 25.
Proof.
  intros Hm. destruct m as [|q|q]; simpl; try lia.
  pose proof (digits2_pos_bounds q) as [Hlo _].
  assert (H : 2 ^ (Z.pos (digits2_pos q) - 1) <= 2 ^ 24) by lia.
  apply Z.pow_le_mono_r_iff in H; lia.
Qed.

(** Rounding a positive number of less than 2^100 to binary32 gives a
    finite float that exceeds it by at most one part in 2^23. *)
Lemma round_aux_ub mx ex :
  -100 <= ex -> Z.pos mx * 2 ^ (ex + 100) < 2 ^ 200 ->
  let r := binary_round_aux prec emax false (Z.pos mx) ex loc_Exact in
  pfin ex r /\ sval r * 2 ^ 23 <= Z.pos mx * 2 ^ (ex + 100) * (2 ^ 23 + 1).
Proof.
  intros Hex Hval r.
  pose proof (shr_fexp_round mx ex Hex) as (He & Hm2 & Hv). cbv zeta in *.
  pose proof (digits2_pos_bounds mx) as [Hlo _].
  set (d := Z.pos (digits2_pos mx)) in *.
  set (k := Z.max (d - 24) 0) in *.
  assert (Hd : d + ex <= 100).
  { assert (H : 2 ^ (d - 1 + (ex + 100)) < 2 ^ 200).
    { rewrite Z.pow_add_r by (unfold d; lia).
      eapply Z.le_lt_trans; [|exact Hval].
      apply Z.mul_le_mono_nonneg_r; [apply Z.pow_nonneg; lia|exact Hlo]. }
    apply Z.pow_lt_mono_r_iff in H; lia. }
  unfold r, binary_round_aux.
  destruct (shr_fexp prec emax (Z.pos mx) ex loc_Exact) as [mrs' e'] eqn:E1.
  simpl fst in *; simpl snd in *.
  set (m2 := round_nearest_even (shr_m mrs') (loc_of_shr_record mrs')) in *.
  destruct (shr_fexp prec emax m2 e' loc_Exact) as [mrs'' e''] eqn:E2.
  unfold shr_fexp in E2.
  set (n2 := fexp prec emax (Zdigits2 m2 + e') - e') in *.
  pose proof (shr_spec (shr_record_of_loc m2 loc_Exact) e' n2) as Hs.
  cbv zeta in Hs. rewrite E2 in Hs. simpl fst in Hs; simpl snd in Hs.
  change (shr_m (shr_record_of_loc m2 loc_Exact)) with m2 in Hs.
  destruct (Hs ltac:(lia)) as [Hm3 He'']. clear Hs.
  set (k2 := Z.max n2 0) in *.
  assert (Hk2 : 0 <= k2 <= 1).
  { pose proof (Zdigits2_le_25 m2 Hm2).
    unfold k2, n2, fexp, emin, prec, emax. lia. }
  assert (Hpk2 : 0 < 2 ^ k2) by (apply Z.pow_pos_nonneg; lia).
  assert (Hpk : 0 < 2 ^ k) by (apply Z.pow_pos_nonneg; lia).
  assert (HP : 0 < 2 ^ (ex + 100)) by (apply Z.pow_pos_nonneg; lia).
  pose proof (Z.mul_div_le m2 (2 ^ k2) Hpk2) as Hfl.
  assert (Hm3nn : 0 <= m2 / 2 ^ k2) by (apply Z.div_pos; lia).
  rewrite <- Hm3 in Hfl, Hm3nn.
  destruct (shr_m mrs'') as [|m3|m3] eqn:Em3; [| |lia].
  - simpl. split; [trivial|]. lia.
  - replace (e'' <=? emax - prec) with true
      by (symmetry; apply Z.leb_le; unfold emax, prec, k; lia).
    simpl. split; [lia|].
    replace (e'' + 100) with ((ex + 100) + k + k2) by lia.
    rewrite !Z.pow_add_r by lia.
    assert (H1 : Z.pos m3 * 2 ^ k2 * 2 ^ k <= m2 * 2 ^ k) by nia.
    assert (H2 : Z.pos m3 * 2 ^ k2 * 2 ^ k * 2 ^ 23 <= Z.pos mx * (2 ^ 23 + 1)) by lia.
    replace (Z.pos m3 * (2 ^ (ex + 100) * 2 ^ k * 2 ^ k2) * 2 ^ 23)
      with (Z.pos m3 * 2 ^ k2 * 2 ^ k * 2 ^ 23 * 2 ^ (ex + 100)) by ring.
    replace (Z.pos mx * 2 ^ (ex + 100) * (2 ^ 23 + 1))
      with (Z.pos mx * (2 ^ 23 + 1) * 2 ^ (ex + 100)) by ring.
    apply Z.mul_le_mono_nonneg_r; lia.
Qed.

(** First stage of rounding, as a floor: [k] bits are dropped. *)
Lemma shr_fexp_floor mx ex :
  -100 <= ex ->
  let k := Z.max (Z.pos (digits2_pos mx) - 24) 0 in
  let st := shr_fexp prec emax (Z.pos mx) ex loc_Exact in
  snd st = ex + k /\ shr_m (fst st) = Z.pos mx / 2 ^ k /\
  (k = 0 -> loc_of_shr_record (fst st) = loc_Exact).
Proof.
  intros Hex k st.
  set (d := Z.pos (digits2_pos mx)) in *.
  assert (Hd : 1 <= d) by (unfold d; lia).
  assert (Hst : st = shr (shr_record_of_loc (Z.pos mx) loc_Exact) ex (d - 24)).
  { unfold st, shr_fexp. simpl Zdigits2. fold d.
    rewrite fexp_normal by lia. f_equal. lia. }
  pose proof (shr_spec (shr_record_of_loc (Z.pos mx) loc_Exact) ex (d - 24))
    as Hs. cbv zeta in Hs. specialize (Hs ltac:(simpl; lia)).
  rewrite <- Hst in Hs.
  change (shr_m (shr_record_of_loc (Z.pos mx) loc_Exact)) with (Z.pos mx) in Hs.
  fold k in Hs. destruct Hs as [Hm He].
  split; [exact He|]. split; [exact Hm|].
  intros Hk. rewrite Hst. unfold shr.
  destruct (d - 24) eqn:E; try reflexivity. unfold k in Hk. lia.
Qed.

(** Rounding a positive number below 2^100 to binary32, in full: the
    result is the mantissa cut to 24 bits, or its successor, at the
    exponent raised by the number [k] of bits dropped; nothing is lost
    when no bit is dropped. *)
Lemma round_aux_decomp mx ex :
  -100 <= ex -> Z.pos mx * 2 ^ (ex + 100) < 2 ^ 200 ->
  let k := Z.max (Z.pos (digits2_pos mx) - 24) 0 in
  let r := binary_round_aux prec emax false (Z.pos mx) ex loc_Exact in
  exists m2,
    Z.pos mx / 2 ^ k <= m2 <= Z.pos mx / 2 ^ k + 1 /\
    (k = 0 -> m2 = Z.pos mx) /\
    pfin ex r /\ sval r = m2 * 2 ^ (ex + k + 100).
Proof.
  intros Hex Hval k r.
  pose proof (shr_fexp_round mx ex Hex) as (He & Hm2 & _).
  pose proof (shr_fexp_floor mx ex Hex) as (_ & Hm1 & Hexact).
  cbv zeta in *.
  pose proof (digits2_pos_bounds mx) as [Hlo _].
  set (d := Z.pos (digits2_pos mx)) in *. fold k in He, Hm1, Hexact.
  assert (Hd : d + ex <= 100).
  { assert (H : 2 ^ (d - 1 + (ex + 100)) < 2 ^ 200).
    { rewrite Z.pow_add_r by (unfold d; lia).
      eapply Z.le_lt_trans; [|exact Hval].
      apply Z.mul_le_mono_nonneg_r; [apply Z.pow_nonneg; lia|exact Hlo]. }
    apply Z.pow_lt_mono_r_iff in H; lia. }
  unfold r, binary_round_aux.
  destruct (shr_fexp prec emax (Z.pos mx) ex loc_Exact) as [mrs' e'] eqn:E1.
  simpl fst in *; simpl snd in *.
  pose proof (round_nearest_even_le (shr_m mrs') (loc_of_shr_record mrs')) as Hr.
  set (m2 := round_nearest_even (shr_m mrs') (loc_of_shr_record mrs')) in *.
  assert (Hm2pos : 0 < m2).
  { rewrite Hm1 in Hr. destruct (Z.eq_dec k 0) as [Hk|Hk].
    - rewrite Hk, Z.pow_0_r, Z.div_1_r in Hr. lia.
    - assert (Hk' : k = d - 24) by (unfold k in *; lia).
      assert (2 ^ (d - 1) = 2 ^ 23 * 2 ^ k).
      { rewrite <- Z.pow_add_r by lia. f_equal. lia. }
      assert (2 ^ 23 <= Z.pos mx / 2 ^ k).
      { apply Z.div_le_lower_bound; [apply Z.pow_pos_nonneg; lia|lia]. }
      lia. }
  exists m2. split; [rewrite <- Hm1; exact Hr|]. split.
  { intros Hk. unfold m2. rewrite (Hexact Hk), Hm1, Hk, Z.pow_0_r, Z.div_1_r.
    reflexivity. }
  destruct (shr_fexp prec emax m2 e' loc_Exact) as [mrs'' e''] eqn:E2.
  unfold shr_fexp in E2.
  set (n2 := fexp prec emax (Zdigits2 m2 + e') - e') in *.
  pose proof (shr_spec (shr_record_of_loc m2 loc_Exact) e' n2) as Hs.
  cbv zeta in Hs. rewrite E2 in Hs. simpl fst in Hs; simpl snd in Hs.
  change (shr_m (shr_record_of_loc m2 loc_Exact)) with m2 in Hs.
  destruct (Hs ltac:(lia)) as [Hm3 He'']. clear Hs.
  set (k2 := Z.max n2 0) in *.
  assert (Hk2 : 0 <= k2 <= 1).
  { pose proof (Zdigits2_le_25 m2 Hm2).
    unfold k2, n2, fexp, emin, prec, emax. lia. }
  (* the second shift, if any, drops a zero bit *)
  assert (Hex2 : shr_m mrs'' * 2 ^ k2 = m2).
  { rewrite Hm3. destruct (Z.eq_dec k2 0) as [E|E].
    - rewrite E, Z.pow_0_r, Z.div_1_r. lia.
    - assert (Ek2 : k2 = 1) by lia. rewrite Ek2. change (2 ^ 1) with 2.
      assert (Hdig : Zdigits2 m2 = 25).
      { pose proof (Zdigits2_le_25 m2 Hm2).
        unfold k2, n2, fexp, emin, prec, emax in Ek2. lia. }
      destruct m2 as [|q|q]; try lia. simpl in Hdig.
      pose proof (digits2_pos_bounds q) as [Hq _]. rewrite Hdig in Hq.
      change (2 ^ (25 - 1)) with (2 ^ 24) in Hq.
      assert (Eq : Z.pos q = 2 ^ 24) by lia. rewrite Eq. reflexivity. }
  assert (Hpk2 : 0 < 2 ^ k2) by (apply Z.pow_pos_nonneg; lia).
  destruct (shr_m mrs'') as [|m3|m3] eqn:Em3; [nia| |nia].
  replace (e'' <=? emax - prec) with true
    by (symmetry; apply Z.leb_le; unfold emax, prec, k; lia).
  simpl. split; [lia|].
  rewrite <- Hex2. replace (e'' + 100) with (k2 + (ex + k + 100)) by lia.
  rewrite Z.pow_add_r by (unfold k; lia). ring.
Qed.

Lemma round_ub mx ex :
  -77 <= ex -> Z.pos mx * 2 ^ (ex + 100) < 2 ^ 200 ->
  let r := binary_round prec emax false mx ex in
  pfin (ex - 23) r /\
  sval r * 2 ^ 23 <= Z.pos mx * 2 ^ (ex + 100) * (2 ^ 23 + 1).
Proof.
  intros Hex Hval r. unfold r, binary_round.
  set (d := Z.pos (digits2_pos mx)).
  assert (Hd : 1 <= d) by (unfold d; lia).
  pose proof (shl_align_spec mx ex (fexp prec emax (d + ex))) as [Hz Hmz].
  destruct (shl_align mx ex (fexp prec emax (d + ex))) as [mz ez].
  simpl fst in *; simpl snd in *.
  rewrite fexp_normal in Hz, Hmz by lia.
  assert (Heq : Z.pos mz * 2 ^ (ez + 100) = Z.pos mx * 2 ^ (ex + 100)).
  { rewrite Hmz, <- Hz, <- Z.mul_assoc, <- Z.pow_add_r by lia.
    do 2 f_equal. lia. }
  destruct (round_aux_ub mz ez) as [Hp Hv]; [lia|lia|].
  split; [eapply pfin_weaken; [|exact Hp]; lia|].
  rewrite <- Heq. exact Hv.
Qed.

Lemma mul_ub x y lx ly :
  pfin lx x -> pfin ly y -> -100 <= lx -> -100 <= ly -> -100 <= lx + ly ->
  sval x * sval y < 2 ^ 300 ->
  pfin (lx + ly) (mul x y) /\
  sval (mul x y) * 2 ^ 123 <= sval x * sval y * (2 ^ 23 + 1).
Proof.
  intros Hx Hy Hlx Hly Hl Hv.
  destruct x as [sx| | |[] mx ex]; destruct y as [sy| | |[] my ey];
    simpl in Hx, Hy; try contradiction; try (simpl; lia).
  unfold mul, SFmul. change (xorb false false) with false.
  change (sval (S754_finite false mx ex)) with (Z.pos mx * 2 ^ (ex + 100)) in *.
  change (sval (S754_finite false my ey)) with (Z.pos my * 2 ^ (ey + 100)) in *.
  assert (Heq : Z.pos mx * 2 ^ (ex + 100) * (Z.pos my * 2 ^ (ey + 100))
                = Z.pos (mx * my) * 2 ^ (ex + ey + 100) * 2 ^ 100).
  { rewrite Pos2Z.inj_mul.
    replace (Z.pos mx * Z.pos my * 2 ^ (ex + ey + 100) * 2 ^ 100)
      with (Z.pos mx * Z.pos my * (2 ^ (ex + ey + 100) * 2 ^ 100)) by ring.
    rewrite <- (Z.pow_add_r 2 (ex + ey + 100)) by lia.
    replace (ex + ey + 100 + 100) with ((ex + 100) + (ey + 100)) by lia.
    rewrite (Z.pow_add_r 2 (ex + 100) (ey + 100)) by lia. ring. }
  rewrite Heq in Hv |- *.
  destruct (round_aux_ub (mx * my) (ex + ey)) as [Hp Hb]; [lia| |].
  { change (2 ^ 300) with (2 ^ 200 * 2 ^ 100) in Hv.
    apply Z.mul_lt_mono_pos_r in Hv; [exact Hv|reflexivity]. }
  split; [eapply pfin_weaken; [|exact Hp]; lia|].
  change (2 ^ 123) with (2 ^ 23 * 2 ^ 100).
  rewrite Z.mul_assoc.
  replace (Z.pos (mx * my) * 2 ^ (ex + ey + 100) * 2 ^ 100 * (2 ^ 23 + 1))
    with (Z.pos (mx * my) * 2 ^ (ex + ey + 100) * (2 ^ 23 + 1) * 2 ^ 100) by ring.
  apply Z.mul_le_mono_nonneg_r; [lia|exact Hb].
Qed.

Lemma add_ub x y l :
  pfin l x -> pfin l y -> -77 <= l ->
  sval x + sval y < 2 ^ 200 ->
  pfin (l - 23) (add x y) /\
  sval (add x y) * 2 ^ 23 <= (sval x + sval y) * (2 ^ 23 + 1).
Proof.
  intros Hx Hy Hl Hv.
  destruct x as [sx| | |[] mx ex]; destruct y as [sy| | |[] my ey];
    simpl in Hx, Hy; try contradiction.
  - destruct sx, sy; simpl; lia.
  - simpl. split; [lia|]. change (2 ^ 23) with 8388608. lia.
  - simpl. split; [lia|]. change (2 ^ 23) with 8388608. lia.
  - unfold add, SFadd. unfold cond_Zopp.
    set (ez := Z.min ex ey).
    pose proof (shl_align_spec mx ex ez) as [_ Hax].
    pose proof (shl_align_spec my ey ez) as [_ Hay].
    replace (Z.min ex ez) with ez in Hax by lia.
    replace (Z.min ey ez) with ez in Hay by lia.
    set (ax := fst (shl_align mx ex ez)) in *.
    set (ay := fst (shl_align my ey ez)) in *.
    change (Z.pos ax + Z.pos ay) with (Z.pos (ax + ay)).
    unfold binary_normalize.
    change (sval (S754_finite false mx ex)) with (Z.pos mx * 2 ^ (ex + 100)) in *.
    change (sval (S754_finite false my ey)) with (Z.pos my * 2 ^ (ey + 100)) in *.
    assert (Heq : Z.pos (ax + ay) * 2 ^ (ez + 100)
                  = Z.pos mx * 2 ^ (ex + 100) + Z.pos my * 2 ^ (ey + 100)).
    { rewrite Pos2Z.inj_add, Hax, Hay, Z.mul_add_distr_r.
      rewrite <- !Z.mul_assoc, <- !Z.pow_add_r by lia.
      f_equal; do 2 f_equal; lia. }
    rewrite <- Heq in Hv |- *.
    destruct (round_ub (ax + ay) ez) as [Hp Hb]; [lia|exact Hv|].
    split; [eapply pfin_weaken; [|exact Hp]; lia|exact Hb].
Qed.

Lemma of_int_ub c :
  0 <= c <= UINT16_MAX ->
  pfin (-23) (of_int c) /\
  sval (of_int c) * 2 ^ 23 <= c * 2 ^ 100 * (2 ^ 23 + 1).
Proof.
  unfold UINT16_MAX. intros Hc. destruct c as [|q|q]; [simpl; lia| |lia].
  unfold of_int, binary_normalize.
  destruct (round_ub q 0) as [Hp Hb]; [lia| |].
  - change (2 ^ (0 + 100)) with (2 ^ 100).
    change (2 ^ 200) with (2 ^ 100 * 2 ^ 100).
    apply Z.mul_lt_mono_pos_r; [reflexivity|].
    change (2 ^ 100) with 1267650600228229401496703205376. lia.
  - split; [exact Hp|exact Hb].
Qed.

(** A non-negative float below [M + 1] casts to a [uint16_t] of at most
    [M]. *)
Lemma to_uint16_ub x lo M :
  pfin lo x -> -100 <= lo -> 0 <= M <= UINT16_MAX ->
  sval x < (M + 1) * 2 ^ 100 ->
  exists t, to_uint16 x = Ok t /\ 0 <= t <= M.
Proof.
  intros Hx Hlo HM Hv.
  destruct x as [sx| | |[] m e]; simpl in Hx; try contradiction.
  - exists 0. split; [reflexivity|lia].
  - change (sval (S754_finite false m e)) with (Z.pos m * 2 ^ (e + 100)) in Hv.
    unfold to_uint16, trunc_mag.
    set (t := Z.shiftl (Z.pos m) e).
    assert (Ht : 0 <= t <= M).
    { unfold t. destruct (Z_le_gt_dec 0 e) as [He|He].
      - rewrite Z.shiftl_mul_pow2 by lia.
        rewrite Z.pow_add_r, Z.mul_assoc in Hv by lia.
        apply Z.mul_lt_mono_pos_r in Hv; [|reflexivity].
        assert (0 < 2 ^ e) by (apply Z.pow_pos_nonneg; lia). nia.
      - rewrite Z.shiftl_div_pow2 by lia.
        assert (Hp : 0 < 2 ^ (- e)) by (apply Z.pow_pos_nonneg; lia).
        split; [apply Z.div_pos; lia|].
        apply Z.lt_succ_r, Z.div_lt_upper_bound; [exact Hp|].
        assert (E : 2 ^ 100 = 2 ^ (- e) * 2 ^ (e + 100)).
        { rewrite <- Z.pow_add_r by lia. f_equal. lia. }
        rewrite E in Hv.
        assert (Hq : 0 < 2 ^ (e + 100)) by (apply Z.pow_pos_nonneg; lia).
        rewrite Z.mul_assoc in Hv.
        apply Z.mul_lt_mono_pos_r in Hv; [|exact Hq]. lia. }
    exists t. replace (t <=? UINT16_MAX) with true
      by (symmetry; apply Z.leb_le; lia).
    split; [reflexivity|exact Ht].
Qed.

(** Rounding loses at most one part in 2^23. *)
Lemma round_aux_lb mx ex :
  -100 <= ex -> Z.pos mx * 2 ^ (ex + 100) < 2 ^ 200 ->
  let r := binary_round_aux prec emax false (Z.pos mx) ex loc_Exact in
  Z.pos mx * 2 ^ (ex + 100) * (2 ^ 23 - 1) <= sval r * 2 ^ 23.
Proof.
  intros Hex Hval r.
  destruct (round_aux_decomp mx ex Hex Hval) as (m2 & Hm2 & Hexact & _ & Hr).
  fold r in Hr. rewrite Hr.
  pose proof (digits2_pos_bounds mx) as [Hlo _].
  set (d := Z.pos (digits2_pos mx)) in *. set (k := Z.max (d - 24) 0) in *.
  assert (Hd : 1 <= d) by (unfold d; lia).
  assert (HP : 0 < 2 ^ (ex + 100)) by (apply Z.pow_pos_nonneg; lia).
  assert (Hpk : 0 < 2 ^ k) by (apply Z.pow_pos_nonneg; lia).
  assert (Hk0 : 0 <= k) by (unfold k; lia).
  replace (ex + k + 100) with (k + (ex + 100)) by lia.
  rewrite (Z.pow_add_r 2 k (ex + 100)) by lia.
  assert (Hcore : Z.pos mx * (2 ^ 23 - 1) <= m2 * 2 ^ k * 2 ^ 23).
  { destruct (Z.eq_dec k 0) as [Hk|Hk].
    - rewrite (Hexact Hk), Hk, Z.pow_0_r. lia.
    - assert (Hsplit : 2 ^ (d - 1) = 2 ^ k * 2 ^ 23).
      { rewrite <- Z.pow_add_r by lia. f_equal. lia. }
      pose proof (Z.mod_pos_bound (Z.pos mx) (2 ^ k) Hpk) as Hmod.
      pose proof (Z.div_mod (Z.pos mx) (2 ^ k) ltac:(lia)) as Hdm.
      nia. }
  nia.
Qed.

(** Rounding never falls below an integer the number reaches, as long as
    the number stays below 2^24, where the floats include every integer. *)
Lemma round_aux_grid mx ex q :
  -100 <= ex -> Z.pos mx * 2 ^ (ex + 100) < 2 ^ 124 ->
  0 <= q -> q * 2 ^ 100 <= Z.pos mx * 2 ^ (ex + 100) ->
  let r := binary_round_aux prec emax false (Z.pos mx) ex loc_Exact in
  q * 2 ^ 100 <= sval r.
Proof.
  intros Hex Hval Hq Hle r.
  assert (Hval' : Z.pos mx * 2 ^ (ex + 100) < 2 ^ 200).
  { eapply Z.lt_le_trans; [exact Hval|]. apply Z.pow_le_mono_r; lia. }
  destruct (round_aux_decomp mx ex Hex Hval') as (m2 & Hm2 & Hexact & _ & Hr).
  fold r in Hr. rewrite Hr.
  pose proof (digits2_pos_bounds mx) as [Hlo _].
  set (d := Z.pos (digits2_pos mx)) in *. set (k := Z.max (d - 24) 0) in *.
  assert (Hd : 1 <= d) by (unfold d; lia).
  destruct (Z.eq_dec k 0) as [Hk|Hk].
  - rewrite (Hexact Hk), Hk, Z.add_0_r. exact Hle.
  - assert (Hk' : k = d - 24) by (unfold k in *; lia).
    assert (Hde : d + ex <= 24).
    { assert (H : 2 ^ (d - 1 + (ex + 100)) < 2 ^ 124).
      { rewrite Z.pow_add_r by lia.
        eapply Z.le_lt_trans; [|exact Hval].
        apply Z.mul_le_mono_nonneg_r; [apply Z.pow_nonneg; lia|exact Hlo]. }
      apply Z.pow_lt_mono_r_iff in H; lia. }
    set (e' := ex + k) in *.
    assert (He' : -100 <= e' <= 0) by (unfold e'; lia).
    assert (Hpk : 0 < 2 ^ k) by (apply Z.pow_pos_nonneg; lia).
    assert (E1 : 2 ^ 100 = 2 ^ (- e') * 2 ^ (e' + 100)).
    { rewrite <- Z.pow_add_r by lia. f_equal. lia. }
    assert (E2 : 2 ^ (- ex) = 2 ^ (- e') * 2 ^ k).
    { rewrite <- Z.pow_add_r by lia. f_equal. unfold e'. lia. }
    assert (E3 : 2 ^ 100 = 2 ^ (- ex) * 2 ^ (ex + 100)).
    { rewrite <- Z.pow_add_r by lia. f_equal. lia. }
    assert (HP : 0 < 2 ^ (ex + 100)) by (apply Z.pow_pos_nonneg; lia).
    assert (HP' : 0 < 2 ^ (e' + 100)) by (apply Z.pow_pos_nonneg; lia).
    assert (Hq1 : q * 2 ^ (- ex) <= Z.pos mx).
    { rewrite E3, Z.mul_assoc in Hle.
      apply Z.mul_le_mono_pos_r in Hle; [exact Hle|exact HP]. }
    assert (Hq2 : q * 2 ^ (- e') <= Z.pos mx / 2 ^ k).
    { apply Z.div_le_lower_bound; [exact Hpk|].
      rewrite E2 in Hq1. lia. }
    rewrite E1, Z.mul_assoc.
    apply Z.mul_le_mono_nonneg_r; lia.
Qed.

(** [binary_round] keeps a number of at most 24 bits as it is. *)
Lemma round_exact mx ex :
  -77 <= ex -> Z.pos mx < 2 ^ 24 ->
  Z.pos mx * 2 ^ (ex + 100) < 2 ^ 200 ->
  let r := binary_round prec emax false mx ex in
  pfin (ex - 23) r /\ sval r = Z.pos mx * 2 ^ (ex + 100).
Proof.
  intros Hex Hsmall Hval r. unfold r, binary_round.
  set (d := Z.pos (digits2_pos mx)).
  assert (Hd : 1 <= d) by (unfold d; lia).
  pose proof (digits2_pos_bounds mx) as [Hlo _]. fold d in Hlo.
  assert (Hd24 : d <= 24).
  { assert (H : 2 ^ (d - 1) < 2 ^ 24) by lia.
    apply Z.pow_lt_mono_r_iff in H; lia. }
  pose proof (shl_align_spec mx ex (fexp prec emax (d + ex))) as [Hz Hmz].
  destruct (shl_align mx ex (fexp prec emax (d + ex))) as [mz ez].
  simpl fst in *; simpl snd in *.
  rewrite fexp_normal in Hz, Hmz by lia.
  assert (Hez : ez = ex + d - 24) by lia.
  assert (Heq : Z.pos mz * 2 ^ (ez + 100) = Z.pos mx * 2 ^ (ex + 100)).
  { rewrite Hmz, <- Hz, <- Z.mul_assoc, <- Z.pow_add_r by lia.
    do 2 f_equal. lia. }
  destruct (round_aux_decomp mz ez) as (m2 & _ & Hexact & Hp & Hr); [lia|lia|].
  split; [eapply pfin_weaken; [|exact Hp]; lia|].
  rewrite Hr, <- Heq.
  assert (Hk : Z.max (Z.pos (digits2_pos mz) - 24) 0 = 0).
  { pose proof (digits2_pos_bounds mz) as [Hlz _].
    pose proof (digits2_pos_bounds mx) as [_ Hhx]. fold d in Hhx.
    assert (Hmz24 : Z.pos mz < 2 ^ 24).
    { rewrite Hmz. replace (ex - Z.min ex (d + ex - 24)) with (24 - d) by lia.
      assert (E : 2 ^ 24 = 2 ^ d * 2 ^ (24 - d)).
      { rewrite <- Z.pow_add_r by lia. f_equal. lia. }
      rewrite E. apply Z.mul_lt_mono_pos_r; [apply Z.pow_pos_nonneg; lia|lia]. }
    assert (H : 2 ^ (Z.pos (digits2_pos mz) - 1) < 2 ^ 24) by lia.
    apply Z.pow_lt_mono_r_iff in H; lia. }
  rewrite (Hexact Hk), Hk, Z.add_0_r. reflexivity.
Qed.

Lemma round_grid mx ex q :
  -77 <= ex -> Z.pos mx * 2 ^ (ex + 100) < 2 ^ 124 ->
  0 <= q -> q * 2 ^ 100 <= Z.pos mx * 2 ^ (ex + 100) ->
  q * 2 ^ 100 <= sval (binary_round prec emax false mx ex).
Proof.
  intros Hex Hval Hq Hle. unfold binary_round.
  set (d := Z.pos (digits2_pos mx)).
  assert (Hd : 1 <= d) by (unfold d; lia).
  pose proof (shl_align_spec mx ex (fexp prec emax (d + ex))) as [Hz Hmz].
  destruct (shl_align mx ex (fexp prec emax (d + ex))) as [mz ez].
  simpl fst in *; simpl snd in *.
  rewrite fexp_normal in Hz, Hmz by lia.
  assert (Heq : Z.pos mz * 2 ^ (ez + 100) = Z.pos mx * 2 ^ (ex + 100)).
  { rewrite Hmz, <- Hz, <- Z.mul_assoc, <- Z.pow_add_r by lia.
    do 2 f_equal. lia. }
  apply round_aux_grid; [lia|lia|exact Hq|lia].
Qed.

Lemma mul_lb x y lx ly :
  pfin lx x -> pfin ly y -> -100 <= lx -> -100 <= ly -> -100 <= lx + ly ->
  sval x * sval y < 2 ^ 300 ->
  sval x * sval y * (2 ^ 23 - 1) <= sval (mul x y) * 2 ^ 123.
Proof.
  intros Hx Hy Hlx Hly Hl Hv.
  destruct x as [sx| | |[] mx ex]; destruct y as [sy| | |[] my ey];
    simpl in Hx, Hy; try contradiction; try (simpl; lia).
  unfold mul, SFmul. change (xorb false false) with false.
  change (sval (S754_finite false mx ex)) with (Z.pos mx * 2 ^ (ex + 100)) in *.
  change (sval (S754_finite false my ey)) with (Z.pos my * 2 ^ (ey + 100)) in *.
  assert (Heq : Z.pos mx * 2 ^ (ex + 100) * (Z.pos my * 2 ^ (ey + 100))
                = Z.pos (mx * my) * 2 ^ (ex + ey + 100) * 2 ^ 100).
  { rewrite Pos2Z.inj_mul.
    replace (Z.pos mx * Z.pos my * 2 ^ (ex + ey + 100) * 2 ^ 100)
      with (Z.pos mx * Z.pos my * (2 ^ (ex + ey + 100) * 2 ^ 100)) by ring.
    rewrite <- (Z.pow_add_r 2 (ex + ey + 100)) by lia.
    replace (ex + ey + 100 + 100) with ((ex + 100) + (ey + 100)) by lia.
    rewrite (Z.pow_add_r 2 (ex + 100) (ey + 100)) by lia. ring. }
  rewrite Heq in Hv |- *.
  assert (Hv' : Z.pos (mx * my) * 2 ^ (ex + ey + 100) < 2 ^ 200).
  { change (2 ^ 300) with (2 ^ 200 * 2 ^ 100) in Hv.
    apply Z.mul_lt_mono_pos_r in Hv; [exact Hv|reflexivity]. }
  pose proof (round_aux_lb (mx * my) (ex + ey) ltac:(lia) Hv') as Hb.
  cbv zeta in Hb. change (2 ^ 123) with (2 ^ 23 * 2 ^ 100). nia.
Qed.

(** A product whose exact value reaches the integer [q], and stays below
    2^24, rounds to a float that reaches [q]. *)
Lemma mul_grid x y lx ly q :
  pfin lx x -> pfin ly y -> -100 <= lx -> -100 <= ly -> -100 <= lx + ly ->
  sval x * sval y < 2 ^ 224 -> 0 <= q ->
  q * 2 ^ 200 <= sval x * sval y ->
  q * 2 ^ 100 <= sval (mul x y).
Proof.
  intros Hx Hy Hlx Hly Hl Hv Hq Hle.
  destruct x as [sx| | |[] mx ex]; destruct y as [sy| | |[] my ey];
    simpl in Hx, Hy; try contradiction; try (simpl in *; lia).
  unfold mul, SFmul. change (xorb false false) with false.
  change (sval (S754_finite false mx ex)) with (Z.pos mx * 2 ^ (ex + 100)) in *.
  change (sval (S754_finite false my ey)) with (Z.pos my * 2 ^ (ey + 100)) in *.
  assert (Heq : Z.pos mx * 2 ^ (ex + 100) * (Z.pos my * 2 ^ (ey + 100))
                = Z.pos (mx * my) * 2 ^ (ex + ey + 100) * 2 ^ 100).
  { rewrite Pos2Z.inj_mul.
    replace (Z.pos mx * Z.pos my * 2 ^ (ex + ey + 100) * 2 ^ 100)
      with (Z.pos mx * Z.pos my * (2 ^ (ex + ey + 100) * 2 ^ 100)) by ring.
    rewrite <- (Z.pow_add_r 2 (ex + ey + 100)) by lia.
    replace (ex + ey + 100 + 100) with ((ex + 100) + (ey + 100)) by lia.
    rewrite (Z.pow_add_r 2 (ex + 100) (ey + 100)) by lia. ring. }
  rewrite Heq in Hv, Hle.
  change (2 ^ 224) with (2 ^ 124 * 2 ^ 100) in Hv.
  apply Z.mul_lt_mono_pos_r in Hv; [|reflexivity].
  change (2 ^ 200) with (2 ^ 100 * 2 ^ 100) in Hle. rewrite Z.mul_assoc in Hle.
  apply Z.mul_le_mono_pos_r in Hle; [|reflexivity].
  apply round_aux_grid; [lia|exact Hv|exact Hq|exact Hle].
Qed.

(** A sum whose exact value reaches the integer [q], and stays below
    2^24, rounds to a float that reaches [q]. *)
Lemma add_grid x y l q :
  pfin l x -> pfin l y -> -77 <= l ->
  sval x + sval y < 2 ^ 124 -> 0 <= q ->
  q * 2 ^ 100 <= sval x + sval y ->
  q * 2 ^ 100 <= sval (add x y).
Proof.
  intros Hx Hy Hl Hv Hq Hle.
  destruct x as [sx| | |[] mx ex]; destruct y as [sy| | |[] my ey];
    simpl in Hx, Hy; try contradiction.
  - destruct sx, sy; simpl in *; lia.
  - simpl in *. lia.
  - simpl in *. lia.
  - unfold add, SFadd. unfold cond_Zopp.
    set (ez := Z.min ex ey).
    pose proof (shl_align_spec mx ex ez) as [_ Hax].
    pose proof (shl_align_spec my ey ez) as [_ Hay].
    replace (Z.min ex ez) with ez in Hax by lia.
    replace (Z.min ey ez) with ez in Hay by lia.
    set (ax := fst (shl_align mx ex ez)) in *.
    set (ay := fst (shl_align my ey ez)) in *.
    change (Z.pos ax + Z.pos ay) with (Z.pos (ax + ay)).
    unfold binary_normalize.
    change (sval (S754_finite false mx ex)) with (Z.pos mx * 2 ^ (ex + 100)) in *.
    change (sval (S754_finite false my ey)) with (Z.pos my * 2 ^ (ey + 100)) in *.
    assert (Heq : Z.pos (ax + ay) * 2 ^ (ez + 100)
                  = Z.pos mx * 2 ^ (ex + 100) + Z.pos my * 2 ^ (ey + 100)).
    { rewrite Pos2Z.inj_add, Hax, Hay, Z.mul_add_distr_r.
      rewrite <- !Z.mul_assoc, <- !Z.pow_add_r by lia.
      f_equal; do 2 f_equal; lia. }
    rewrite <- Heq in Hv, Hle.
    apply round_grid; [lia|exact Hv|exact Hq|exact Hle].
Qed.

Lemma of_int_exact c :
  0 <= c <= UINT16_MAX ->
  pfin (-23) (of_int c) /\ sval (of_int c) = c * 2 ^ 100.
Proof.
  unfold UINT16_MAX. intros Hc. destruct c as [|q|q]; [simpl; lia| |lia].
  unfold of_int, binary_normalize.
  destruct (round_exact q 0) as [Hp Hb]; [lia| | |].
  - change (2 ^ 24) with 16777216. lia.
  - change (2 ^ (0 + 100)) with (2 ^ 100).
    change (2 ^ 200) with (2 ^ 100 * 2 ^ 100).
    apply Z.mul_lt_mono_pos_r; [reflexivity|].
    change (2 ^ 100) with 1267650600228229401496703205376. lia.
  - split; [exact Hp|exact Hb].
Qed.

(** The cast of a non-negative float that reaches the integer [q] gives
    at least [q]. *)
Lemma to_uint16_lb x lo q t :
  pfin lo x -> -100 <= lo -> q * 2 ^ 100 <= sval x ->
  to_uint16 x = Ok t -> q <= t.
Proof.
  intros Hx Hlo Hq Ht.
  destruct x as [sx| | |[] m e]; simpl in Hx; try contradiction.
  - simpl in *. injection Ht as <-. lia.
  - change (sval (S754_finite false m e)) with (Z.pos m * 2 ^ (e + 100)) in Hq.
    unfold to_uint16, trunc_mag in Ht.
    destruct (Z.shiftl (Z.pos m) e <=? UINT16_MAX); [|discriminate].
    injection Ht as <-.
    destruct (Z_le_gt_dec 0 e) as [He|He].
    + rewrite Z.shiftl_mul_pow2 by lia.
      rewrite Z.pow_add_r, Z.mul_assoc in Hq by lia.
      apply Z.mul_le_mono_pos_r in Hq; [exact Hq|reflexivity].
    + rewrite Z.shiftl_div_pow2 by lia.
      assert (Hp : 0 < 2 ^ (- e)) by (apply Z.pow_pos_nonneg; lia).
      apply Z.div_le_lower_bound; [exact Hp|].
      assert (E : 2 ^ 100 = 2 ^ (- e) * 2 ^ (e + 100)).
      { rewrite <- Z.pow_add_r by lia. f_equal. lia. }
      rewrite E, Z.mul_assoc in Hq.
      assert (Hq' : 0 < 2 ^ (e + 100)) by (apply Z.pow_pos_nonneg; lia).
      apply Z.mul_le_mono_pos_r in Hq; [lia|exact Hq'].
Qed.

End Float32Facts.

(** The filter with the coefficient 0.1f never leaves the range of its two
    inputs: for samples in [0, M] the cast is defined and the result is in
    [0, M] again. *)
Lemma low_pass_filter_range (c p M : Z) :
  0 <= c <= M -> 0 <= p <= M -> M <= UINT16_MAX ->
  exists v, low_pass_filter c p Float32.tenth = Ok v /\ 0 <= v <= M.
Proof.
  intros Hc Hp HM. unfold low_pass_filter.
  change (Float32.sub Float32.one Float32.tenth)
    with (S754_finite false 15099494 (-24)).
  set (a := Float32.tenth).
  set (b := S754_finite false 15099494 (-24)).
  destruct (Float32Facts.of_int_ub c) as [Hfc Hvc]; [lia|].
  destruct (Float32Facts.of_int_ub p) as [Hfp Hvp]; [lia|].
  set (fc := Float32.of_int c) in *. set (fp := Float32.of_int p) in *.
  assert (Ha : Float32.sval a = 13421773 * 2 ^ 73) by reflexivity.
  assert (Hb : Float32.sval b = 15099494 * 2 ^ 76) by reflexivity.
  pose proof (Float32Facts.sval_nonneg fc) as Hfc0.
  pose proof (Float32Facts.sval_nonneg fp) as Hfp0.
  unfold UINT16_MAX in HM.
  destruct (Float32Facts.mul_ub a fc (-27) (-23)) as [Ht1 Hv1];
    [simpl; lia|exact Hfc|lia|lia|lia|rewrite Ha; lia|].
  destruct (Float32Facts.mul_ub b fp (-24) (-23)) as [Ht2 Hv2];
    [simpl; lia|exact Hfp|lia|lia|lia|rewrite Hb; lia|].
  rewrite Ha in Hv1. rewrite Hb in Hv2.
  set (t1 := Float32.mul a fc) in *. set (t2 := Float32.mul b fp) in *.
  pose proof (Float32Facts.sval_nonneg t1) as Ht10.
  pose proof (Float32Facts.sval_nonneg t2) as Ht20.
  destruct (Float32Facts.add_ub t1 t2 (-50)) as [Hs Hvs];
    [exact Ht1|eapply Float32Facts.pfin_weaken; [|exact Ht2]; lia|lia|lia|].
  set (s := Float32.add t1 t2) in *.
  apply (Float32Facts.to_uint16_ub s (-50 - 23) M);
    [exact Hs|lia|unfold UINT16_MAX; lia|lia].
Qed.

(** * Arrays and loops *)

Lemma read_middle (pre post : buffer) (v : Z) :
  read (pre ++ v :: post) (Z.of_nat (length pre)) = Ok v.
Proof.
  unfold read. replace (_ <? 0) with false by fails.
  rewrite Nat2Z.id, list_lookup_middle by done. reflexivity.
Qed.

Lemma write_middle (pre post : buffer) (v v' : Z) :
  write (pre ++ v :: post) (Z.of_nat (length pre)) v' = Ok (pre ++ v' :: post).
Proof.
  unfold write. rewrite length_app. simpl length.
  replace (_ && _) with true by holds.
  rewrite Nat2Z.id.
  replace (length pre) with (length pre + 0)%nat at 1 by lia.
  rewrite insert_app_r. reflexivity.
Qed.

Lemma seqZ_step (k : Z) (n : nat) :
  seqZ k (Z.of_nat (S n)) = k :: seqZ (k + 1) (Z.of_nat n).
Proof.
  rewrite seqZ_cons by lia. do 2 f_equal; lia.
Qed.

Lemma app_cons_assoc {A : Type} (pre : list A) (a : A) (l : list A) :
  pre ++ a :: l = (pre ++ [a]) ++ l.
Proof. rewrite <- app_assoc. reflexivity. Qed.

Lemma length_snoc_Z {A : Type} (pre : list A) (a : A) :
  Z.of_nat (length (pre ++ [a])) = Z.of_nat (length pre) + 1.
Proof. rewrite length_app. simpl. lia. Qed.

(** * Normalisation *)

Lemma buffer_max_nonneg b : 0 <= buffer_max b.
Proof. induction b as [|a b IH]; simpl; lia. Qed.

Lemma buffer_max_ub b : Forall (fun v => v <= buffer_max b) b.
Proof.
  induction b as [|a b IH]; constructor; simpl; [lia|].
  eapply Forall_impl; [exact IH|]. simpl. intros; lia.
Qed.

Lemma buffer_max_elem b : 0 < buffer_max b -> buffer_max b ∈ b.
Proof.
  induction b as [|a b IH]; simpl; [lia|]. intros H.
  destruct (Z.max_spec a (buffer_max b)) as [[_ E]|[_ E]]; rewrite E in *.
  - right. auto.
  - left.
Qed.

Lemma buffer_max_le b M : 0 <= M -> Forall (fun v => v <= M) b -> buffer_max b <= M.
Proof. intros HM. induction 1; simpl; lia. Qed.

(** The first loop of [normalize_audio] computes the peak. *)
Lemma peak_scan (buf : buffer) : forall (l pre : buffer) (m : Z),
  buf = pre ++ l -> 0 <= m ->
  for_each (seqZ (Z.of_nat (length pre)) (Z.of_nat (length l)))
    (fun i max_val =>
       bi <- read buf i ;; Ok (if bi >? max_val then bi else max_val)) m
  = Ok (Z.max m (buffer_max l)).
Proof.
  induction l as [|a l IH]; intros pre m Hb Hm.
  - simpl. f_equal. lia.
  - simpl length. rewrite seqZ_step. simpl for_each.
    assert (Hr : read buf (Z.of_nat (length pre)) = Ok a)
      by (rewrite Hb; apply read_middle).
    rewrite Hr. cbn [bind].
    rewrite <- (length_snoc_Z pre a), (IH (pre ++ [a])).
    + f_equal. simpl. destruct (Z.gtb_spec a m); lia.
    + rewrite Hb. apply app_cons_assoc.
    + destruct (Z.gtb_spec a m); lia.
Qed.

(** One iteration of the second loop, at the cell after [pre]. *)
Lemma rescale_step (max_val a : Z) (pre post : buffer) :
  0 < max_val <= UINT16_MAX -> 0 <= a <= max_val ->
  (bi <- read (pre ++ a :: post) (Z.of_nat (length pre)) ;;
   p <- int_mul bi 1023 ;;
   q <- int_div p max_val ;;
   write (pre ++ a :: post) (Z.of_nat (length pre)) (to_u16 q))
  = Ok (pre ++ rescale max_val a :: post).
Proof.
  unfold UINT16_MAX. intros Hmax Ha.
  rewrite read_middle. cbn [bind].
  assert (Hq : 0 <= a * 1023 / max_val <= 1023).
  { split; [apply Z.div_pos; lia|].
    apply Z.div_le_upper_bound; lia. }
  unfold int_mul, int_of, in_int, INT_MIN, INT_MAX.
  replace ((_ <=? a * 1023) && _) with true by holds.
  cbn [bind]. unfold int_div.
  replace (max_val =? 0) with false by fails.
  rewrite Z.quot_div_nonneg by lia.
  unfold int_of, in_int, INT_MIN, INT_MAX.
  replace ((_ <=? a * 1023 / max_val) && _) with true by holds.
  cbn [bind]. unfold to_u16. rewrite Z.mod_small by lia.
  apply write_middle.
Qed.

(** The second loop rescales the entries one by one, in place. *)
Lemma rescale_scan (max_val : Z) : forall (l pre : buffer),
  0 < max_val <= UINT16_MAX ->
  Forall (fun v => 0 <= v <= max_val) l ->
  for_each (seqZ (Z.of_nat (length pre)) (Z.of_nat (length l)))
    (fun i b =>
       bi <- read b i ;;
       p <- int_mul bi 1023 ;;
       q <- int_div p max_val ;;
       write b i (to_u16 q)) (pre ++ l)
  = Ok (pre ++ (rescale max_val <$> l)).
Proof.
  induction l as [|a l IH]; intros pre Hmax Hl; [reflexivity|].
  inversion Hl as [|? ? Ha Hl']; subst.
  simpl length. rewrite seqZ_step. cbn [for_each].
  rewrite rescale_step by done. cbn [bind].
  rewrite (app_cons_assoc pre (rescale max_val a) l).
  rewrite <- (length_snoc_Z pre (rescale max_val a)), IH by done.
  rewrite <- app_assoc. reflexivity.
Qed.

(** With a peak of zero the second loop is skipped, whatever the cells. *)
Lemma normalize_audio_peak_zero (b : buffer) :
  buffer_max b = 0 -> normalize_audio b (Z.of_nat (length b)) = Ok b.
Proof.
  intros Hmax. unfold normalize_audio, for_upto.
  pose proof (peak_scan b b [] 0 eq_refl ltac:(lia)) as Hpeak.
  change (Z.of_nat (length [])) with 0 in Hpeak.
  rewrite Hpeak, Hmax. reflexivity.
Qed.

Lemma rescale_range (max_val v : Z) :
  0 < max_val -> 0 <= v <= max_val -> 0 <= rescale max_val v <= R.
Proof.
  intros Hmax Hv. unfold rescale, R. split; [apply Z.div_pos; lia|].
  apply Z.div_le_upper_bound; lia.
Qed.

Lemma wf_buffer_below_max (b : buffer) :
  wf_buffer b -> Forall (fun v => 0 <= v <= buffer_max b) b.
Proof.
  intros Hwf. pose proof (buffer_max_ub b) as Hub. unfold wf_buffer in Hwf.
  rewrite Forall_forall in Hwf, Hub |- *. intros v Hv.
  specialize (Hwf v Hv). specialize (Hub v Hv). unfold u16 in Hwf.
  simpl in Hub. lia.
Qed.

Lemma buffer_max_u16 (b : buffer) : wf_buffer b -> buffer_max b <= UINT16_MAX.
Proof.
  intros Hwf. apply buffer_max_le; [unfold UINT16_MAX; lia|].
  eapply Forall_impl; [exact Hwf|]. unfold u16. simpl. intros; lia.
Qed.

(** With a positive peak every cell is rescaled. *)
Lemma normalize_audio_peak_pos (b : buffer) :
  wf_buffer b -> 0 < buffer_max b ->
  normalize_audio b (Z.of_nat (length b)) = Ok (rescale (buffer_max b) <$> b).
Proof.
  intros Hwf Hmax. unfold normalize_audio, for_upto.
  pose proof (peak_scan b b [] 0 eq_refl ltac:(lia)) as Hpeak.
  change (Z.of_nat (length [])) with 0 in Hpeak.
  rewrite Hpeak. cbn [bind]. rewrite Z.max_r by lia.
  replace (buffer_max b =? 0) with false by fails.
  apply (rescale_scan (buffer_max b) b []).
  - split; [lia|]. apply buffer_max_u16, Hwf.
  - apply wf_buffer_below_max, Hwf.
Qed.

Lemma rescaled_in_range (b : buffer) :
  wf_buffer b -> 0 < buffer_max b ->
  in_output_range (rescale (buffer_max b) <$> b).
Proof.
  intros Hwf Hmax. apply Forall_fmap.
  eapply Forall_impl; [apply wf_buffer_below_max, Hwf|].
  intros v Hv. apply rescale_range; assumption.
Qed.

(** After [normalize_audio] every cell is in the output range, and the
    array has the cells it had. *)
Lemma normalize_audio_range (b : buffer) :
  wf_buffer b ->
  exists b', normalize_audio b (Z.of_nat (length b)) = Ok b' /\
             length b' = length b /\ in_output_range b'.
Proof.
  intros Hwf. pose proof (buffer_max_nonneg b) as Hnn.
  destruct (Z.eq_dec (buffer_max b) 0) as [E|E].
  - exists b. split; [apply normalize_audio_peak_zero, E|]. split; [reflexivity|].
    eapply Forall_impl; [apply wf_buffer_below_max, Hwf|].
    unfold R. simpl. intros; lia.
  - exists (rescale (buffer_max b) <$> b).
    split; [apply normalize_audio_peak_pos; [assumption|lia]|].
    split; [apply length_fmap|]. apply rescaled_in_range; [assumption|lia].
Qed.

(** * Capture *)

Lemma to_u16_range z : 0 <= to_u16 z <= UINT16_MAX.
Proof.
  unfold to_u16, UINT16_MAX.
  pose proof (Z.mod_pos_bound z 65536 ltac:(lia)). lia.
Qed.

Lemma to_u16_small z : 0 <= z <= UINT16_MAX -> to_u16 z = z.
Proof. unfold to_u16, UINT16_MAX. intros. apply Z.mod_small. lia. Qed.

(** Readings bounded by [M] give a filtered sequence bounded by [M]: the
    cast in the filter is always defined. *)
Lemma filter_run_range (M : Z) : forall (raws : list Z) (prev : Z),
  M <= UINT16_MAX -> 0 <= prev <= M ->
  Forall (fun r => 0 <= r <= M) raws ->
  exists fs, filter_run Float32.tenth prev raws = Ok fs /\
             length fs = length raws /\
             Forall (fun v => 0 <= v <= M) fs.
Proof.
  induction raws as [|raw raws IH]; intros prev HM Hprev Hraws.
  - exists []. repeat split; constructor.
  - inversion Hraws as [|? ? Hraw Hrest]; subst.
    destruct (low_pass_filter_range raw prev M Hraw Hprev HM) as (v & Ev & Hv).
    destruct (IH v HM Hv Hrest) as (tl & Etl & Hlen & Htl).
    exists (v :: tl). simpl. rewrite Ev. cbn [bind]. rewrite Etl. cbn [bind].
    repeat split; [simpl; lia|constructor; assumption].
Qed.

Lemma adc_window_S (w : world) (n : nat) :
  adc_window w (S n)
  = to_u16 (adc_source w (adc_taken w)) :: adc_window (snd (adc_read w)) n.
Proof. reflexivity. Qed.

Lemma adc_window_u16 (w : world) (n : nat) :
  Forall (fun r => 0 <= r <= UINT16_MAX) (adc_window w n).
Proof.
  unfold adc_window. apply Forall_fmap, Forall_forall. intros k _.
  apply to_u16_range.
Qed.

Lemma adc_window_bounded (w : world) (n : nat) (M : Z) :
  M <= UINT16_MAX -> (forall k, 0 <= adc_source w k <= M) ->
  Forall (fun r => 0 <= r <= M) (adc_window w n).
Proof.
  intros HM Hsrc. unfold adc_window. apply Forall_fmap, Forall_forall.
  intros k _. simpl. rewrite to_u16_small; [apply Hsrc|].
  specialize (Hsrc k). lia.
Qed.

Lemma adc_window_lookup (w : world) (n i : nat) (r : Z) :
  adc_window w n !! i = Some r ->
  r = to_u16 (adc_source w (adc_taken w + i)).
Proof.
  unfold adc_window. rewrite list_lookup_fmap. intros H.
  destruct (seq (adc_taken w) n !! i) as [k|] eqn:E; [|discriminate].
  apply lookup_seq in E as [-> _]. injection H as <-. reflexivity.
Qed.

(** The recurrence read cell by cell: entry [i] is the filter applied to
    reading [i] and to entry [i - 1], or to [prev] when [i] is 0. *)
Lemma filter_run_lookup (alpha : Float32.float) : forall raws prev fs,
  filter_run alpha prev raws = Ok fs ->
  forall (i : nat) (v : Z), fs !! i = Some v ->
  exists raw, raws !! i = Some raw /\
    low_pass_filter raw
      (match i with O => prev | S j => default 0 (fs !! j) end) alpha = Ok v.
Proof.
  induction raws as [|raw0 raws IH]; intros prev fs Hrun i v Hv.
  - injection Hrun as <-. discriminate.
  - cbn [filter_run] in Hrun.
    destruct (low_pass_filter raw0 prev alpha) as [f|] eqn:Ef; [|discriminate].
    cbn [bind] in Hrun.
    destruct (filter_run alpha f raws) as [tl|] eqn:Etl; [|discriminate].
    cbn [bind] in Hrun. injection Hrun as <-.
    destruct i as [|j].
    + injection Hv as <-. exists raw0. split; [reflexivity|exact Ef].
    + destruct (IH f tl Etl j v Hv) as (raw & Hraw & Hlpf).
      exists raw. split; [exact Hraw|].
      destruct j as [|k]; exact Hlpf.
Qed.

(** The loop of [grava_audio] from the cell after [pre] on: it consumes one
    conversion per cell, overwrites the cells with the filtered sequence
    and sleeps one tick per cell. *)
Lemma grava_scan (cfg : config) : forall (old pre : buffer) (prev : Z)
    (w : world) (fs : list Z),
  audio_buffer w = pre ++ old ->
  filter_run Float32.tenth prev (adc_window w (length old)) = Ok fs ->
  exists prev',
    for_each (seqZ (Z.of_nat (length pre)) (Z.of_nat (length old)))
      (grava_audio_body cfg Float32.tenth) (prev, w)
    = Ok (prev',
          {| adc_source := adc_source w;
             adc_taken := adc_taken w + length old;
             audio_buffer := pre ++ fs;
             trace := trace w
                      ++ replicate (length old) (EvSleepUs (tick_us cfg)) |}).
Proof.
  induction old as [|o old IH]; intros pre prev w fs Hbuf Hrun.
  - exists prev. simpl in Hrun. injection Hrun as <-.
    destruct w as [src taken buf tr]. simpl in *. subst buf.
    rewrite Nat.add_0_r, !app_nil_r. reflexivity.
  - simpl length in *. rewrite adc_window_S in Hrun. cbn [filter_run] in Hrun.
    destruct (low_pass_filter _ prev _) as [f|] eqn:Ef; [|discriminate].
    cbn [bind] in Hrun.
    destruct (filter_run _ f _) as [tl|] eqn:Etl; [|discriminate].
    cbn [bind] in Hrun. injection Hrun as <-.
    rewrite seqZ_step. cbn [for_each].
    destruct w as [src taken buf tr]. simpl in Hbuf. subst buf.
    unfold grava_audio_body at 1. cbn [adc_read adc_source adc_taken].
    simpl in Ef. rewrite Ef. cbn [bind audio_buffer].
    rewrite write_middle. cbn [bind].
    rewrite <- (length_snoc_Z pre f).
    match goal with
    | |- context [for_each _ _ (f, ?w2)] =>
        destruct (IH (pre ++ [f]) f w2 tl) as [prev' Hrest]
    end.
    { simpl. rewrite <- app_assoc. reflexivity. }
    { exact Etl. }
    exists prev'. rewrite Hrest. simpl. do 3 f_equal.
    + lia.
    + rewrite <- app_assoc. reflexivity.
    + rewrite <- app_assoc. reflexivity.
Qed.

(** * Playback *)

Lemma reproduz_scan (cfg : config) : forall (rest pre : buffer) (w : world),
  audio_buffer w = pre ++ rest ->
  for_each (seqZ (Z.of_nat (length pre)) (Z.of_nat (length rest)))
    (reproduz_audio_body cfg) w
  = Ok {| adc_source := adc_source w;
          adc_taken := adc_taken w;
          audio_buffer := audio_buffer w;
          trace := trace w ++ flat_map (play_step cfg) rest |}.
Proof.
  induction rest as [|v rest IH]; intros pre w Hbuf.
  - destruct w as [src taken buf tr]. simpl. rewrite app_nil_r. reflexivity.
  - simpl length. rewrite seqZ_step. cbn [for_each].
    destruct w as [src taken buf tr]. simpl in Hbuf. subst buf.
    unfold reproduz_audio_body at 1. cbn [audio_buffer].
    rewrite read_middle. cbn [bind]. simpl audio_buffer.
    rewrite read_middle. cbn [bind].
    rewrite <- (length_snoc_Z pre v), IH.
    + simpl. f_equal. f_equal. rewrite <- !app_assoc. reflexivity.
    + simpl. rewrite <- app_assoc. reflexivity.
Qed.

(** [grava_audio] up to the end of its loop, for readings bounded by [M]:
    the cells hold the filtered sequence of the next [MAX_SAMPLES]
    conversions, started from 0. *)
Lemma grava_audio_loop_spec (cfg : config) (w : world) (M : Z) :
  wf_world cfg w -> 0 <= M <= UINT16_MAX ->
  Forall (fun r => 0 <= r <= M) (adc_window w (length (audio_buffer w))) ->
  exists fs,
    filter_run Float32.tenth 0 (adc_window w (length (audio_buffer w))) = Ok fs /\
    length fs = length (audio_buffer w) /\
    Forall (fun v => 0 <= v <= M) fs /\
    grava_audio_loop cfg w
    = Ok {| adc_source := adc_source w;
            adc_taken := adc_taken w + length (audio_buffer w);
            audio_buffer := fs;
            trace := trace w ++ [EvGpioPut LED_RED_PIN true]
                     ++ replicate (length (audio_buffer w))
                          (EvSleepUs (tick_us cfg)) |}.
Proof.
  intros Hw HM Hraws.
  destruct (filter_run_range M _ 0 ltac:(lia) ltac:(lia) Hraws)
    as (fs & Hrun & Hlen & Hfs).
  assert (Hlen' : length fs = length (audio_buffer w)).
  { rewrite Hlen. unfold adc_window. rewrite length_fmap. apply length_seq. }
  exists fs. split; [exact Hrun|]. split; [exact Hlen'|]. split; [exact Hfs|].
  unfold grava_audio_loop, for_upto. unfold wf_world in Hw. rewrite <- Hw.
  destruct (grava_scan cfg (audio_buffer w) [] 0
              (gpio_put LED_RED_PIN true w) fs eq_refl Hrun) as [prev' Hscan].
  change (Z.of_nat (length [])) with 0 in Hscan. rewrite Hscan.
  cbn [bind snd]. simpl. rewrite <- app_assoc. reflexivity.
Qed.

Lemma pwm_writes_app (t1 t2 : list event) :
  pwm_writes (t1 ++ t2) = pwm_writes t1 ++ pwm_writes t2.
Proof. apply omap_app. Qed.

Lemma pwm_writes_play (cfg : config) (b : buffer) :
  pwm_writes (flat_map (play_step cfg) b)
  = flat_map (fun v => [(5, 0, v); (2, 1, v)]) b.
Proof.
  induction b as [|v b IH]; [reflexivity|].
  cbn [flat_map]. rewrite pwm_writes_app, IH. reflexivity.
Qed.

Lemma length_paired {A : Type} (f g : Z -> A) (b : buffer) :
  length (flat_map (fun v => [f v; g v]) b) = (2 * length b)%nat.
Proof. induction b as [|v b IH]; simpl; lia. Qed.

(** * Moving average *)

Lemma int_of_Ok z : INT_MIN <= z <= INT_MAX -> int_of z = Ok z.
Proof.
  intros H. unfold int_of, in_int. replace (_ && _) with true by holds.
  reflexivity.
Qed.

Lemma sum_list_Z_nonneg (l : list Z) :
  Forall (fun v => 0 <= v) l -> 0 <= sum_list_Z l.
Proof. induction 1; simpl; lia. Qed.

Lemma sum_list_Z_ub (l : list Z) (M : Z) :
  Forall (fun v => v <= M) l -> sum_list_Z l <= M * Z.of_nat (length l).
Proof. induction 1; simpl length; simpl sum_list_Z; lia. Qed.

Section MovingAverage.
Variable cfg : config.
Variable buf : buffer.
Hypothesis Hwf : wf_buffer buf.

Lemma pick_u16 (idx : list Z) : Forall u16 (omap (window_pick cfg buf) idx).
Proof.
  induction idx as [|i idx IH]; [constructor|]. simpl.
  destruct ((window_pick cfg buf) i) as [v|] eqn:E; [|exact IH]. constructor; [|exact IH].
  unfold window_pick in E. destruct (in_window cfg i); [|discriminate].
  unfold wf_buffer in Hwf. rewrite Forall_lookup in Hwf. eapply Hwf, E.
Qed.

Lemma step_inside (i v sum count : Z) :
  in_window cfg i = true -> buf !! Z.to_nat i = Some v ->
  INT_MIN <= i + 1 <= INT_MAX ->
  0 <= sum -> sum + v <= INT_MAX -> 0 <= count -> count + 1 <= INT_MAX ->
  (moving_average_iter cfg buf) i (sum, count) = Ok (sum + v, count + 1).
Proof.
  intros Ew Ev Hi Hs Hsv Hc Hc1.
  assert (Hv : u16 v).
  { unfold wf_buffer in Hwf. rewrite Forall_lookup in Hwf. eapply Hwf, Ev. }
  unfold u16 in Hv.
  unfold moving_average_iter, moving_average_body. fold (in_window cfg i). rewrite Ew.
  unfold in_window in Ew. apply andb_true_iff in Ew as [E0 _].
  apply Z.leb_le in E0.
  unfold read. replace (i <? 0) with false by fails. rewrite Ev. cbn [bind].
  unfold int_add. unfold INT_MIN, INT_MAX in *.
  rewrite !int_of_Ok by (unfold INT_MIN, INT_MAX; lia).
  reflexivity.
Qed.

Lemma step_outside (i : Z) (acc : Z * Z) :
  in_window cfg i = false -> INT_MIN <= i + 1 <= INT_MAX ->
  (moving_average_iter cfg buf) i acc = Ok acc.
Proof.
  intros Ew Hi. destruct acc as [sum count].
  unfold moving_average_iter, moving_average_body. fold (in_window cfg i). rewrite Ew.
  cbn [bind]. unfold int_add. rewrite int_of_Ok by done. reflexivity.
Qed.

(** The loop over any run of indices, none of them [INT_MAX], when the
    array has its [MAX_SAMPLES] cells and neither counter overflows. *)
Lemma moving_average_scan :
  Z.of_nat (length buf) = MAX_SAMPLES cfg ->
  forall (idx : list Z) (sum count : Z),
    Forall (fun i => INT_MIN <= i + 1 <= INT_MAX) idx ->
    0 <= sum -> 0 <= count ->
    sum + sum_list_Z (omap (window_pick cfg buf) idx) <= INT_MAX ->
    count + Z.of_nat (length (omap (window_pick cfg buf) idx)) <= INT_MAX ->
    for_each idx (moving_average_iter cfg buf) (sum, count)
    = Ok (sum + sum_list_Z (omap (window_pick cfg buf) idx),
          count + Z.of_nat (length (omap (window_pick cfg buf) idx))).
Proof.
  intros Hlen. induction idx as [|i idx IH]; intros sum count Hidx Hs Hc Hsum Hcnt.
  - simpl. do 2 f_equal; lia.
  - inversion Hidx as [|? ? Hi Hidx']; subst.
    pose proof (pick_u16 idx) as Hes.
    assert (Hnn : 0 <= sum_list_Z (omap (window_pick cfg buf) idx)).
    { apply sum_list_Z_nonneg. eapply Forall_impl; [exact Hes|].
      unfold u16. simpl. intros; lia. }
    cbn [for_each]. cbn [omap list_omap] in Hsum, Hcnt |- *.
    destruct (in_window cfg i) eqn:Ew.
    + assert (Hlt : (Z.to_nat i < length buf)%nat).
      { unfold in_window in Ew. apply andb_true_iff in Ew as [E0 EN].
        apply Z.leb_le in E0. apply Z.ltb_lt in EN. lia. }
      destruct (lookup_lt_is_Some_2 buf (Z.to_nat i) Hlt) as [v Ev].
      assert (Ep : (window_pick cfg buf) i = Some v) by (unfold window_pick; rewrite Ew; exact Ev).
      rewrite Ep in Hsum, Hcnt |- *.
      assert (Hv : u16 v).
      { unfold wf_buffer in Hwf. rewrite Forall_lookup in Hwf. eapply Hwf, Ev. }
      unfold u16 in Hv.
      simpl sum_list_Z in Hsum |- *. simpl length in Hcnt |- *.
      rewrite (step_inside i v) by (assumption || lia). cbn [bind].
      rewrite IH; [do 2 f_equal; lia|assumption|lia..].
    + assert (Ep : (window_pick cfg buf) i = None) by (unfold window_pick; rewrite Ew; reflexivity).
      rewrite Ep in Hsum, Hcnt |- *.
      rewrite step_outside by assumption. cbn [bind].
      apply IH; assumption.
Qed.

Lemma pick_outside (idx : list Z) :
  Forall (fun i => in_window cfg i = false) idx -> omap (window_pick cfg buf) idx = [].
Proof.
  induction 1 as [|i idx Hi _ IH]; [reflexivity|].
  cbn [omap list_omap]. unfold window_pick at 1. rewrite Hi. exact IH.
Qed.

Lemma pick_inside : forall (k : nat) (a : nat),
  Z.of_nat (length buf) = MAX_SAMPLES cfg ->
  (a + k <= length buf)%nat ->
  omap (window_pick cfg buf) (seqZ (Z.of_nat a) (Z.of_nat k)) = take k (drop a buf).
Proof.
  induction k as [|k IH]; intros a Hlen Hk; [reflexivity|].
  rewrite seqZ_step. cbn [omap list_omap].
  destruct (lookup_lt_is_Some_2 buf a) as [v Ev]; [lia|].
  unfold window_pick at 1, in_window.
  replace (_ && _) with true by holds.
  rewrite Nat2Z.id, Ev, (drop_S _ _ _ Ev). cbn [take]. f_equal.
  replace (Z.of_nat a + 1) with (Z.of_nat (S a)) by lia.
  apply IH; [assumption|lia].
Qed.

(** The window is the contiguous run of cells from
    [max 0 (index - window)] to [min (MAX_SAMPLES - 1) (index + window)]:
    near either end of the array it is cut short, not padded. *)
Lemma window_entries_slice (index window : Z) :
  Z.of_nat (length buf) = MAX_SAMPLES cfg ->
  0 <= index < MAX_SAMPLES cfg -> 0 <= window ->
  let a := Z.max 0 (index - window) in
  let b := Z.min (MAX_SAMPLES cfg - 1) (index + window) in
  window_entries cfg buf index window
  = take (Z.to_nat (b - a + 1)) (drop (Z.to_nat a) buf).
Proof.
  intros Hlen Hi Hw a b. unfold window_entries.
  set (lo := index - window).
  set (n1 := a - lo). set (n2 := Z.to_nat (b - a + 1)). set (n3 := index + window - b).
  assert (Ha : a = Z.of_nat (Z.to_nat a)) by lia.
  replace (2 * window + 1) with (n1 + (Z.of_nat n2 + n3)) by lia.
  rewrite (seqZ_app lo), (seqZ_app (lo + n1)), !omap_app by lia.
  replace (lo + n1) with a by lia.
  rewrite (pick_outside (seqZ lo n1)).
  2:{ apply Forall_seqZ. intros i Hin. unfold in_window.
      symmetry. fails. }
  rewrite (pick_outside (seqZ (a + Z.of_nat n2) n3)).
  2:{ apply Forall_seqZ. intros i Hin. unfold in_window.
      symmetry. fails. }
  rewrite app_nil_r, app_nil_l. rewrite Ha at 1.
  apply pick_inside; [assumption|lia].
Qed.

End MovingAverage.

(** Samples of the output range never overflow the accumulator when
    [MAX_SAMPLES * 1023] fits an [int], as it does for the build of the
    source. *)
Lemma window_sum_fits cfg (buf : buffer) (index window : Z) :
  in_output_range buf ->
  Z.of_nat (length buf) = MAX_SAMPLES cfg -> MAX_SAMPLES cfg * R <= INT_MAX ->
  0 <= index < MAX_SAMPLES cfg -> 0 <= window ->
  sum_list_Z (window_entries cfg buf index window) <= INT_MAX.
Proof.
  intros Hrange Hlen HN Hi Hw.
  rewrite (window_entries_slice cfg buf index window Hlen Hi Hw).
  set (es := take _ (drop _ buf)).
  assert (Hes : Forall (fun v => v <= R) es).
  { apply Forall_take, Forall_drop. eapply Forall_impl; [exact Hrange|].
    simpl. intros; lia. }
  apply sum_list_Z_ub in Hes.
  assert (Hle : (length es <= length buf)%nat).
  { unfold es. rewrite length_take, length_drop. lia. }
  unfold R in *. nia.
Qed.

Lemma int_sub_Ok a b :
  INT_MIN <= a - b <= INT_MAX -> int_sub a b = Ok (a - b).
Proof. apply int_of_Ok. Qed.

Lemma int_add_Ok a b :
  INT_MIN <= a + b <= INT_MAX -> int_add a b = Ok (a + b).
Proof. apply int_of_Ok. Qed.

(** The window for every index and half-width: the run of cells from
    [max 0 (index - window)] to [min (MAX_SAMPLES - 1) (index + window)],
    empty when the first lies beyond the second. *)
Lemma window_entries_cut cfg (buf : buffer) (index window : Z) :
  Z.of_nat (length buf) = MAX_SAMPLES cfg ->
  window_entries cfg buf index window
  = take (Z.to_nat (Z.min (MAX_SAMPLES cfg - 1) (index + window)
                    - Z.max 0 (index - window) + 1))
         (drop (Z.to_nat (Z.max 0 (index - window))) buf).
Proof.
  intros Hlen. unfold window_entries.
  set (a := Z.max 0 (index - window)).
  set (b := Z.min (MAX_SAMPLES cfg - 1) (index + window)).
  destruct (Z_le_gt_dec a b) as [Hab|Hab].
  - set (lo := index - window).
    set (n1 := a - lo). set (n2 := Z.to_nat (b - a + 1)).
    set (n3 := index + window - b).
    assert (Ha : a = Z.of_nat (Z.to_nat a)) by lia.
    replace (2 * window + 1) with (n1 + (Z.of_nat n2 + n3)) by lia.
    rewrite (seqZ_app lo), (seqZ_app (lo + n1)), !omap_app by lia.
    replace (lo + n1) with a by lia.
    rewrite (pick_outside cfg buf (seqZ lo n1)).
    2:{ apply Forall_seqZ. intros i Hin. unfold in_window.
        symmetry. fails. }
    rewrite (pick_outside cfg buf (seqZ (a + Z.of_nat n2) n3)).
    2:{ apply Forall_seqZ. intros i Hin. unfold in_window.
        symmetry. fails. }
    rewrite app_nil_r, app_nil_l. rewrite Ha at 1.
    apply (pick_inside cfg buf); [assumption|lia].
  - replace (Z.to_nat (b - a + 1)) with 0%nat by lia. cbn [take].
    apply pick_outside, Forall_seqZ. intros i Hin. unfold in_window.
    symmetry. fails.
Qed.

(** The loop of [moving_average_filter] when no [int] expression in it
    overflows: it ends with the sum and the number of the window's
    entries. *)
Lemma moving_average_loop_ok cfg (buf : buffer) (index window : Z) :
  wf_buffer buf -> Z.of_nat (length buf) = MAX_SAMPLES cfg ->
  INT_MIN <= index - window <= INT_MAX ->
  INT_MIN <= index + window < INT_MAX ->
  sum_list_Z (window_entries cfg buf index window) <= INT_MAX ->
  moving_average_loop cfg buf index window
  = Ok (sum_list_Z (window_entries cfg buf index window),
        Z.of_nat (length (window_entries cfg buf index window))).
Proof.
  intros Hwf Hlen Hlo Hhi Hsum.
  pose proof (window_entries_cut cfg buf index window Hlen) as Hcut.
  set (es := window_entries cfg buf index window) in *.
  assert (Hcnt : Z.of_nat (length es) <= INT_MAX).
  { rewrite Hcut, length_take. unfold INT_MIN, INT_MAX in *. lia. }
  unfold moving_average_loop.
  rewrite int_sub_Ok, int_add_Ok by lia. cbn [bind].
  replace (index + window - (index - window) + 1) with (2 * window + 1) by lia.
  pose proof (moving_average_scan cfg buf Hwf Hlen
                (seqZ (index - window) (2 * window + 1)) 0 0) as Hscan.
  change (omap (window_pick cfg buf) (seqZ (index - window) (2 * window + 1)))
    with es in Hscan.
  rewrite Hscan; [reflexivity| |lia..].
  apply Forall_seqZ. unfold INT_MIN, INT_MAX in *. intros; lia.
Qed.

(** What [moving_average_filter] returns when no [int] expression in it
    overflows: the truncated mean of a window that meets the array, a
    division by zero for a window that misses it. *)
Lemma moving_average_filter_cases cfg (buf : buffer) (index window : Z) :
  wf_buffer buf -> Z.of_nat (length buf) = MAX_SAMPLES cfg ->
  INT_MIN <= index - window <= INT_MAX ->
  INT_MIN <= index + window < INT_MAX ->
  sum_list_Z (window_entries cfg buf index window) <= INT_MAX ->
  let a := Z.max 0 (index - window) in
  let b := Z.min (MAX_SAMPLES cfg - 1) (index + window) in
  (a <= b ->
   1 <= Z.of_nat (length (window_entries cfg buf index window)) /\
   moving_average_filter cfg buf index window
   = Ok (window_mean cfg buf index window)) /\
  (b < a ->
   window_entries cfg buf index window = [] /\
   moving_average_loop cfg buf index window = Ok (0, 0) /\
   moving_average_filter cfg buf index window = Fault DivByZero).
Proof.
  intros Hwf Hlen Hlo Hhi Hsum a b.
  pose proof (window_entries_cut cfg buf index window Hlen) as Hcut.
  pose proof (moving_average_loop_ok cfg buf index window Hwf Hlen Hlo Hhi Hsum)
    as Hloop.
  fold a b in Hcut. unfold moving_average_filter, window_mean.
  set (es := window_entries cfg buf index window) in *.
  split; intros Hab.
  - assert (Hes : Forall u16 es) by apply (pick_u16 cfg buf Hwf).
    assert (Hcnt : 1 <= Z.of_nat (length es)).
    { rewrite Hcut, length_take, length_drop. lia. }
    split; [exact Hcnt|].
    assert (Hnn : 0 <= sum_list_Z es).
    { apply sum_list_Z_nonneg. eapply Forall_impl; [exact Hes|].
      unfold u16. simpl. intros; lia. }
    assert (Hub : sum_list_Z es <= UINT16_MAX * Z.of_nat (length es)).
    { apply sum_list_Z_ub. eapply Forall_impl; [exact Hes|].
      unfold u16. simpl. intros; lia. }
    unfold UINT16_MAX in Hub.
    assert (Hq : 0 <= Z.quot (sum_list_Z es) (Z.of_nat (length es)) <= 65535).
    { rewrite Z.quot_div_nonneg by lia. split; [apply Z.div_pos; lia|].
      apply Z.div_le_upper_bound; lia. }
    rewrite Hloop. cbn [bind fst snd]. unfold int_div.
    replace (_ =? 0) with false by fails.
    rewrite int_of_Ok by (unfold INT_MIN, INT_MAX; lia). cbn [bind].
    unfold to_u16. rewrite Z.mod_small by lia. reflexivity.
  - assert (Hnil : es = []).
    { rewrite Hcut. replace (Z.to_nat (b - a + 1)) with 0%nat by lia.
      reflexivity. }
    rewrite Hloop, Hnil. repeat split.
Qed.

(** * The contracts *)

(** The build of the source: a buffer of 80000 samples, played and recorded
    with 62 microseconds between samples. *)
Example bitdoglab_constants :
  MAX_SAMPLES bitdoglab = 80000 /\ tick_us bitdoglab = 62 /\
  MAX_SAMPLES bitdoglab * R <= INT_MAX.
Proof. repeat split; vm_compute; congruence. Qed.

(** ** Normalisation *)

(** Claim C1. For a buffer whose peak [max_val] is positive,
    [normalize_audio] replaces every entry [v] by
    [floor (v * 1023 / max_val)]; afterwards the peak is 1023 and every
    entry lies in [0, 1023]. *)
Theorem normalize_audio_rescales (b : buffer) :
  wf_buffer b -> 0 < buffer_max b ->
  normalize_audio b (Z.of_nat (length b))
  = Ok ((fun v => v * 1023 / buffer_max b) <$> b) /\
  buffer_max ((fun v => v * 1023 / buffer_max b) <$> b) = 1023 /\
  Forall (fun v => 0 <= v <= 1023) ((fun v => v * 1023 / buffer_max b) <$> b).
Proof.
  intros Hwf Hmax.
  change (fun v => v * 1023 / buffer_max b) with (rescale (buffer_max b)).
  split; [apply normalize_audio_peak_pos; assumption|].
  pose proof (rescaled_in_range b Hwf Hmax) as Hrange.
  split; [|exact Hrange].
  apply Z.le_antisymm.
  - apply buffer_max_le; [lia|].
    eapply Forall_impl; [exact Hrange|]. unfold R. simpl. intros; lia.
  - pose proof (buffer_max_ub (rescale (buffer_max b) <$> b)) as Hub.
    rewrite Forall_forall in Hub.
    assert (Hin : rescale (buffer_max b) (buffer_max b)
                  ∈ rescale (buffer_max b) <$> b).
    { apply list_elem_of_fmap_2, buffer_max_elem, Hmax. }
    specialize (Hub _ Hin). simpl in Hub.
    assert (E : rescale (buffer_max b) (buffer_max b) = 1023)
      by (unfold rescale, R; rewrite Z.mul_comm; apply Z.div_mul; lia).
    rewrite E in Hub. exact Hub.
Qed.

Lemma normalize_audio_rescales_witness :
  normalize_audio [10; 19; 27] 3 = Ok [378; 719; 1023] /\
  buffer_max [378; 719; 1023] = 1023.
Proof.
  destruct (normalize_audio_rescales [10; 19; 27]) as (Hres & Hmax & _).
  - repeat constructor; unfold u16, UINT16_MAX; lia.
  - reflexivity.
  - split; [exact Hres|exact Hmax].
Defined.

(** Claim C3. For a buffer whose peak is 0 (silence), [normalize_audio]
    leaves every entry as it is and raises no fault, in particular no
    division by zero. *)
Theorem normalize_audio_silence (b : buffer) :
  buffer_max b = 0 ->
  normalize_audio b (Z.of_nat (length b)) = Ok b /\
  normalize_audio b (Z.of_nat (length b)) <> Fault DivByZero.
Proof.
  intros Hmax. rewrite normalize_audio_peak_zero by exact Hmax.
  split; [reflexivity|discriminate].
Qed.

Lemma normalize_audio_silence_witness :
  normalize_audio [0; 0; 0; 0] 4 = Ok [0; 0; 0; 0].
Proof.
  apply (normalize_audio_silence [0; 0; 0; 0]). reflexivity.
Defined.

(** Claim C9. For a buffer whose peak already is 1023, [normalize_audio]
    leaves every entry as it is: normalising an already normalised buffer
    changes nothing. *)
Theorem normalize_audio_full_scale (b : buffer) :
  wf_buffer b -> buffer_max b = 1023 ->
  normalize_audio b (Z.of_nat (length b)) = Ok b.
Proof.
  intros Hwf Hmax.
  rewrite normalize_audio_peak_pos by (assumption || lia).
  rewrite Hmax. f_equal.
  rewrite <- (list_fmap_id b) at 2. apply list_fmap_ext.
  intros i v _. unfold rescale, R. apply Z.div_mul. lia.
Qed.

Lemma normalize_audio_full_scale_witness :
  normalize_audio [378; 719; 1023] 3 = Ok [378; 719; 1023].
Proof.
  apply (normalize_audio_full_scale [378; 719; 1023]).
  - repeat constructor; unfold u16, UINT16_MAX; lia.
  - reflexivity.
Defined.

(** ** Capture *)

(** Claim C2. [grava_audio] runs its loop [MAX_SAMPLES] times: it takes
    exactly that many conversions from the ADC and sleeps that many ticks;
    the value stored in cell [i] is the filter
    [alpha * raw + (1 - alpha) * previous] applied to reading [i] and to
    the value stored in cell [i - 1], 0 for the first cell; and the buffer
    it leaves is [normalize_audio] of that filtered sequence, whatever the
    readings. *)
Theorem grava_audio_runs (cfg : config) (w : world) :
  wf_world cfg w ->
  let n := length (audio_buffer w) in
  exists filtered normalized,
    filter_run Float32.tenth 0 (adc_window w n) = Ok filtered /\
    Z.of_nat (length filtered) = MAX_SAMPLES cfg /\
    (forall (i : nat) (v : Z), filtered !! i = Some v ->
       low_pass_filter (to_u16 (adc_source w (adc_taken w + i)))
         (match i with O => 0 | S j => default 0 (filtered !! j) end)
         Float32.tenth = Ok v) /\
    normalize_audio filtered (MAX_SAMPLES cfg) = Ok normalized /\
    grava_audio cfg w
    = Ok {| adc_source := adc_source w;
            adc_taken := adc_taken w + n;
            audio_buffer := normalized;
            trace := trace w ++ [EvGpioPut LED_RED_PIN true]
                     ++ replicate n (EvSleepUs (tick_us cfg))
                     ++ [EvGpioPut LED_RED_PIN false] |}.
Proof.
  intros Hw n.
  destruct (grava_audio_loop_spec cfg w UINT16_MAX Hw)
    as (fs & Hrun & Hlen & Hfs & Hloop);
    [unfold UINT16_MAX; lia|apply adc_window_u16|].
  destruct (normalize_audio_range fs Hfs) as (b' & Hnorm & _ & _).
  unfold wf_world in Hw. rewrite Hlen, Hw in Hnorm.
  exists fs, b'. split; [exact Hrun|]. split; [lia|]. split.
  { intros i v Hv.
    destruct (filter_run_lookup _ _ _ _ Hrun i v Hv) as (raw & Hraw & Hlpf).
    apply adc_window_lookup in Hraw as ->. exact Hlpf. }
  split; [exact Hnorm|].
  unfold grava_audio. rewrite Hloop. cbn [bind audio_buffer].
  rewrite Hnorm. cbn [bind]. unfold gpio_put, emit, set_audio_buffer. simpl.
  rewrite <- !app_assoc. reflexivity.
Qed.

Lemma grava_audio_runs_witness :
  exists w',
    grava_audio test_config (power_on test_config (fun _ => 100)) = Ok w' /\
    adc_taken w' = 3%nat /\
    audio_buffer w' = [378; 719; 1023].
Proof.
  destruct (grava_audio_runs test_config (power_on test_config (fun _ => 100)))
    as (filtered & normalized & Hrun & _ & _ & Hnorm & Hgrava).
  - reflexivity.
  - vm_compute in Hrun. injection Hrun as <-.
    vm_compute in Hnorm. injection Hnorm as <-.
    eexists. split; [exact Hgrava|]. split; reflexivity.
Defined.

(** Claim C5. Whatever the ADC delivers, [grava_audio] completes and
    leaves an Audio Buffer of exactly [MAX_SAMPLES] entries, each of them
    in [0, 1023]. *)
Theorem grava_audio_output_range (cfg : config) (w : world) :
  wf_world cfg w ->
  exists w',
    grava_audio cfg w = Ok w' /\
    Z.of_nat (length (audio_buffer w')) = MAX_SAMPLES cfg /\
    Forall (fun v => 0 <= v <= 1023) (audio_buffer w').
Proof.
  intros Hw.
  destruct (grava_audio_loop_spec cfg w UINT16_MAX Hw)
    as (fs & Hrun & Hlen & Hfs & Hloop);
    [unfold UINT16_MAX; lia|apply adc_window_u16|].
  destruct (normalize_audio_range fs Hfs) as (b' & Hnorm & Hlen' & Hrange).
  unfold wf_world in Hw.
  unfold grava_audio. rewrite Hloop. cbn [bind audio_buffer].
  rewrite <- Hw, <- Hlen, Hnorm. cbn [bind].
  eexists. split; [reflexivity|]. simpl. split; [lia|exact Hrange].
Qed.

Lemma grava_audio_output_range_witness :
  exists w',
    grava_audio test_config (power_on test_config (fun k => 4095 * Z.of_nat k))
    = Ok w' /\
    length (audio_buffer w') = 3%nat /\
    Forall (fun v => 0 <= v <= 1023) (audio_buffer w').
Proof.
  destruct (grava_audio_output_range test_config
              (power_on test_config (fun k => 4095 * Z.of_nat k)))
    as (w' & Hgrava & Hlen & Hrange).
  - reflexivity.
  - exists w'. split; [exact Hgrava|]. split; [|exact Hrange].
    change (MAX_SAMPLES test_config) with 3 in Hlen. lia.
Defined.

(** Claim C6, as the code has it. Recording three samples with the raw
    readings [100, 100, 100], the coefficient 0.1f and the filter started
    at 0 stores the filtered sequence [10, 19, 27]; normalising it to 1023
    gives [378, 719, 1023], each entry the floor of [v * 1023 / 27]. *)
Theorem three_sample_scenario :
  filter_run Float32.tenth 0 [100; 100; 100] = Ok [10; 19; 27] /\
  (exists w, grava_audio_loop test_config (power_on test_config (fun _ => 100))
             = Ok w /\ audio_buffer w = [10; 19; 27]) /\
  normalize_audio [10; 19; 27] 3 = Ok [378; 719; 1023] /\
  (exists w, grava_audio test_config (power_on test_config (fun _ => 100))
             = Ok w /\ audio_buffer w = [378; 719; 1023]).
Proof.
  split; [vm_compute; reflexivity|].
  split; [eexists; split; vm_compute; reflexivity|].
  split; [vm_compute; reflexivity|].
  eexists; split; vm_compute; reflexivity.
Qed.

(** The normalised values the scenario is written with, [370, 703, 1023],
    are not what the code computes from [10, 19, 27]. *)
Lemma three_sample_scenario_as_stated_fails :
  ~ (filter_run Float32.tenth 0 [100; 100; 100] = Ok [10; 19; 27] /\
     normalize_audio [10; 19; 27] 3 = Ok [370; 703; 1023]).
Proof. intros [_ H]. vm_compute in H. discriminate H. Qed.

(** Claim C7, as the code has it. The values the capture loop stores are
    not confined to [0, 1023]: they stay within the range of the raw
    readings. If every conversion lies in [0, M], for any [M] a
    [uint16_t] can hold (4095 for the 12-bit ADC), every value stored
    before normalisation lies in [0, M]. *)
Theorem grava_audio_loop_range (cfg : config) (w : world) (M : Z) :
  wf_world cfg w -> M <= UINT16_MAX ->
  (forall k, 0 <= adc_source w k <= M) ->
  exists w',
    grava_audio_loop cfg w = Ok w' /\
    Z.of_nat (length (audio_buffer w')) = MAX_SAMPLES cfg /\
    Forall (fun v => 0 <= v <= M) (audio_buffer w').
Proof.
  intros Hw HM Hsrc.
  assert (HM0 : 0 <= M) by (specialize (Hsrc 0%nat); lia).
  destruct (grava_audio_loop_spec cfg w M Hw)
    as (fs & Hrun & Hlen & Hfs & Hloop);
    [lia|apply adc_window_bounded; assumption|].
  eexists. split; [exact Hloop|]. simpl. split; [|exact Hfs].
  unfold wf_world in Hw. lia.
Qed.

Lemma grava_audio_loop_range_witness :
  exists w',
    grava_audio_loop test_config (power_on test_config full_scale_adc)
    = Ok w' /\
    Forall (fun v => 0 <= v <= ADC_MAX) (audio_buffer w').
Proof.
  destruct (grava_audio_loop_range test_config
              (power_on test_config full_scale_adc) ADC_MAX)
    as (w' & Hloop & _ & Hrange).
  - reflexivity.
  - unfold ADC_MAX, UINT16_MAX. lia.
  - intros k. simpl. unfold full_scale_adc, ADC_MAX. lia.
  - exists w'. split; [exact Hloop|exact Hrange].
Defined.

(** Three full-scale conversions of the 12-bit ADC already take the
    stored value past 1023. *)
Lemma grava_audio_loop_exceeds_output_range :
  (forall k : nat, 0 <= full_scale_adc k <= ADC_MAX) /\
  exists w',
    grava_audio_loop test_config (power_on test_config full_scale_adc)
    = Ok w' /\
    audio_buffer w' = [409; 777; 1108] /\
    ~ Forall (fun v => 0 <= v <= 1023) (audio_buffer w').
Proof.
  split; [intros k; unfold full_scale_adc, ADC_MAX; lia|].
  eexists. split; [vm_compute; reflexivity|]. split; [reflexivity|].
  simpl. intros H. rewrite !Forall_cons in H. lia.
Qed.

(** ** Playback *)

(** Claim C4. For every buffer state, [reproduz_audio] writes, for each
    cell in order, the cell's value to the left and then to the right
    buzzer, and after the last cell one 0 to each of them: [MAX_SAMPLES]
    paired writes and one pair of silence, [2 * MAX_SAMPLES + 2] PWM writes
    in all. The buffer is left as it was. *)
Theorem reproduz_audio_writes (cfg : config) (w : world) :
  wf_world cfg w ->
  exists played,
    reproduz_audio cfg w
    = Ok {| adc_source := adc_source w; adc_taken := adc_taken w;
            audio_buffer := audio_buffer w;
            trace := trace w ++ played |} /\
    played = [EvGpioPut LED_GREEN_PIN true]
             ++ flat_map (play_step cfg) (audio_buffer w)
             ++ [pwm_write BUZZER_LEFT 0; pwm_write BUZZER_RIGHT 0;
                 EvGpioPut LED_GREEN_PIN false] /\
    pwm_writes played
    = flat_map (fun v => [(pwm_gpio_to_slice_num BUZZER_LEFT,
                           pwm_gpio_to_channel BUZZER_LEFT, v);
                          (pwm_gpio_to_slice_num BUZZER_RIGHT,
                           pwm_gpio_to_channel BUZZER_RIGHT, v)])
               (audio_buffer w)
      ++ [(pwm_gpio_to_slice_num BUZZER_LEFT,
           pwm_gpio_to_channel BUZZER_LEFT, 0);
          (pwm_gpio_to_slice_num BUZZER_RIGHT,
           pwm_gpio_to_channel BUZZER_RIGHT, 0)] /\
    Z.of_nat (length (pwm_writes played)) = 2 * MAX_SAMPLES cfg + 2.
Proof.
  intros Hw. eexists. split; [|split; [reflexivity|]].
  - unfold reproduz_audio, for_upto. unfold wf_world in Hw. rewrite <- Hw.
    pose proof (reproduz_scan cfg (audio_buffer w) []
                  (gpio_put LED_GREEN_PIN true w) eq_refl) as Hscan.
    change (Z.of_nat (length [])) with 0 in Hscan. rewrite Hscan.
    cbn [bind]. unfold play_sample, pwm_set_chan_level, gpio_put, emit.
    simpl. rewrite <- !app_assoc. reflexivity.
  - assert (E : forall b : buffer,
              pwm_writes ([EvGpioPut LED_GREEN_PIN true]
                          ++ flat_map (play_step cfg) b
                          ++ [pwm_write BUZZER_LEFT 0; pwm_write BUZZER_RIGHT 0;
                              EvGpioPut LED_GREEN_PIN false])
              = flat_map (fun v => [(5, 0, v); (2, 1, v)]) b
                ++ [(5, 0, 0); (2, 1, 0)]).
    { intros b. rewrite !pwm_writes_app, pwm_writes_play. reflexivity. }
    split; [apply E|]. rewrite E, length_app, length_paired.
    unfold wf_world in Hw. simpl length. lia.
Qed.

Lemma reproduz_audio_writes_witness :
  exists w',
    reproduz_audio test_config
      {| adc_source := fun _ => 0; adc_taken := 3;
         audio_buffer := [378; 719; 1023]; trace := [] |} = Ok w' /\
    pwm_writes (trace w')
    = [(5, 0, 378); (2, 1, 378); (5, 0, 719); (2, 1, 719);
       (5, 0, 1023); (2, 1, 1023); (5, 0, 0); (2, 1, 0)].
Proof.
  destruct (reproduz_audio_writes test_config
              {| adc_source := fun _ => 0; adc_taken := 3;
                 audio_buffer := [378; 719; 1023]; trace := [] |})
    as (played & Hplay & _ & Hpwm & _).
  - reflexivity.
  - eexists. split; [exact Hplay|]. exact Hpwm.
Defined.

(** ** Moving average *)

(** Claim C8, as the code has it. For an array of [MAX_SAMPLES] cells, and
    every index and window for which no [int] expression of the function
    overflows ([index - window] and [index + window] are [int]s, the
    latter below [INT_MAX] so that [i++] is defined, and the window's sum
    fits an [int]), the entries the loop adds up are exactly those whose
    index lies in [index - window, index + window] and in
    [0, MAX_SAMPLES - 1]: the contiguous run of cells from
    [max 0 (index - window)] to [min (MAX_SAMPLES - 1) (index + window)],
    cut short at either end of the array. Whenever that run is not empty,
    the index itself lying inside the array or not,
    [moving_average_filter] returns its integer-truncated mean; whenever it
    is empty the function divides by zero. For index 0 and window 5 the
    run is the six entries at 0..5, not eleven. The function only reads
    the array. *)
Theorem moving_average_filter_mean (cfg : config) (buf : buffer)
    (index window : Z) :
  wf_buffer buf ->
  Z.of_nat (length buf) = MAX_SAMPLES cfg ->
  INT_MIN <= index - window <= INT_MAX ->
  INT_MIN <= index + window < INT_MAX ->
  sum_list_Z (window_entries cfg buf index window) <= INT_MAX ->
  window_entries cfg buf index window
  = take (Z.to_nat (Z.min (MAX_SAMPLES cfg - 1) (index + window)
                    - Z.max 0 (index - window) + 1))
         (drop (Z.to_nat (Z.max 0 (index - window))) buf) /\
  (Z.max 0 (index - window) <= Z.min (MAX_SAMPLES cfg - 1) (index + window) ->
   moving_average_filter cfg buf index window
   = Ok (window_mean cfg buf index window)) /\
  (Z.min (MAX_SAMPLES cfg - 1) (index + window) < Z.max 0 (index - window) ->
   window_entries cfg buf index window = [] /\
   moving_average_filter cfg buf index window = Fault DivByZero) /\
  (index = 0 -> window = 5 -> 6 <= MAX_SAMPLES cfg ->
   window_entries cfg buf index window = take 6 buf).
Proof.
  intros Hwf Hlen Hlo Hhi Hsum.
  pose proof (window_entries_cut cfg buf index window Hlen) as Hcut.
  destruct (moving_average_filter_cases cfg buf index window
              Hwf Hlen Hlo Hhi Hsum) as (Hmeets & Hmisses).
  cbv zeta in Hmeets, Hmisses.
  split; [exact Hcut|]. split; [|split].
  - intros Hab. apply Hmeets, Hab.
  - intros Hab. destruct (Hmisses Hab) as (Hnil & _ & Hdiv).
    split; assumption.
  - intros -> -> H6. rewrite Hcut.
    replace (Z.max 0 (0 - 5)) with 0 by lia.
    replace (Z.min (MAX_SAMPLES cfg - 1) (0 + 5) - 0 + 1) with 6 by lia.
    reflexivity.
Qed.

Lemma moving_average_filter_mean_witness :
  (moving_average_filter test_config8 [6; 12; 18; 24; 30; 37; 900; 1000] 0 5
   = Ok 21 /\
   window_entries test_config8 [6; 12; 18; 24; 30; 37; 900; 1000] 0 5
   = [6; 12; 18; 24; 30; 37]) /\
  (moving_average_filter test_config [3; 4; 8] (-1) 2 = Ok 3 /\
   window_entries test_config [3; 4; 8] (-1) 2 = [3; 4]) /\
  moving_average_filter test_config [3; 4; 8] 4 1 = Fault DivByZero.
Proof.
  split; [|split].
  - destruct (moving_average_filter_mean test_config8
                [6; 12; 18; 24; 30; 37; 900; 1000] 0 5)
      as (_ & Hmean & _ & Hsix).
    + repeat constructor; unfold u16, UINT16_MAX; lia.
    + reflexivity.
    + unfold INT_MIN, INT_MAX. lia.
    + unfold INT_MIN, INT_MAX. lia.
    + vm_compute. discriminate.
    + split.
      * apply Hmean. unfold MAX_SAMPLES. simpl. lia.
      * apply Hsix; [reflexivity..|unfold MAX_SAMPLES; simpl; lia].
  - destruct (moving_average_filter_mean test_config [3; 4; 8] (-1) 2)
      as (Hcut & Hmean & _).
    + repeat constructor; unfold u16, UINT16_MAX; lia.
    + reflexivity.
    + unfold INT_MIN, INT_MAX. lia.
    + unfold INT_MIN, INT_MAX. lia.
    + vm_compute. discriminate.
    + split; [|exact Hcut]. apply Hmean. unfold MAX_SAMPLES. simpl. lia.
  - destruct (moving_average_filter_mean test_config [3; 4; 8] 4 1)
      as (_ & _ & Hempty & _).
    + repeat constructor; unfold u16, UINT16_MAX; lia.
    + reflexivity.
    + unfold INT_MIN, INT_MAX. lia.
    + unfold INT_MIN, INT_MAX. lia.
    + vm_compute. discriminate.
    + apply Hempty. unfold MAX_SAMPLES. simpl. lia.
Defined.

(** The window of index -3 and half-width 1 misses the array: the loop
    counts nothing and the function divides by zero instead of returning a
    mean. *)
Lemma moving_average_filter_empty_window :
  window_entries test_config [3; 4; 8] (-3) 1 = [] /\
  moving_average_filter test_config [3; 4; 8] (-3) 1 = Fault DivByZero /\
  moving_average_filter test_config [3; 4; 8] (-3) 1
  <> Ok (window_mean test_config [3; 4; 8] (-3) 1).
Proof. split; [reflexivity|]. split; [reflexivity|discriminate]. Qed.

(** Claim C10, as the code has it. With [0 <= index < MAX_SAMPLES] and
    [window >= 0], and no [int] expression of the function overflowing
    ([index - window] not below [INT_MIN], [index + window] below
    [INT_MAX], the window's sum within [INT_MAX]), the loop of
    [moving_average_filter] runs to its end and counts the index itself:
    [count] is the number of the window's entries, at least 1, and the
    function returns a value instead of dividing by zero. Without the
    precondition on the index the divisor can be zero: every window that
    misses the array (wholly below index 0, wholly at or above
    [MAX_SAMPLES], or of negative half-width) ends the loop with
    [count = 0] and the function divides by zero. *)
Theorem moving_average_count_positive (cfg : config) (buf : buffer)
    (index window : Z) :
  wf_buffer buf ->
  Z.of_nat (length buf) = MAX_SAMPLES cfg ->
  0 <= index < MAX_SAMPLES cfg -> 0 <= window ->
  INT_MIN <= index - window -> index + window < INT_MAX ->
  sum_list_Z (window_entries cfg buf index window) <= INT_MAX ->
  (exists sum count,
      moving_average_loop cfg buf index window = Ok (sum, count) /\
      count = Z.of_nat (length (window_entries cfg buf index window)) /\
      1 <= count) /\
  (exists v, moving_average_filter cfg buf index window = Ok v) /\
  (forall index' window',
      INT_MIN <= index' - window' <= INT_MAX ->
      INT_MIN <= index' + window' < INT_MAX ->
      index' + window' < 0 \/ MAX_SAMPLES cfg <= index' - window'
      \/ window' < 0 ->
      moving_average_loop cfg buf index' window' = Ok (0, 0) /\
      moving_average_filter cfg buf index' window' = Fault DivByZero).
Proof.
  intros Hwf Hlen Hi Hw Hlo Hhi Hsum.
  assert (Hlo' : INT_MIN <= index - window <= INT_MAX) by lia.
  assert (Hhi' : INT_MIN <= index + window < INT_MAX)
    by (unfold INT_MIN in *; lia).
  destruct (moving_average_filter_cases cfg buf index window
              Hwf Hlen Hlo' Hhi' Hsum) as (Hmeets & _).
  cbv zeta in Hmeets. destruct Hmeets as (Hcnt & Hmean); [lia|].
  split; [|split].
  - eexists. eexists. split; [|split; [reflexivity|exact Hcnt]].
    apply moving_average_loop_ok; assumption.
  - eexists. exact Hmean.
  - intros index' window' Hlo2 Hhi2 Hmiss.
    assert (Hnil : window_entries cfg buf index' window' = []).
    { rewrite (window_entries_cut cfg buf index' window' Hlen).
      replace (Z.to_nat _) with 0%nat by lia. reflexivity. }
    assert (Hsum2 : sum_list_Z (window_entries cfg buf index' window')
                    <= INT_MAX)
      by (rewrite Hnil; unfold INT_MAX; simpl; lia).
    destruct (moving_average_filter_cases cfg buf index' window'
                Hwf Hlen Hlo2 Hhi2 Hsum2) as (_ & Hmisses).
    cbv zeta in Hmisses. destruct Hmisses as (_ & Hloop & Hdiv); [lia|].
    split; assumption.
Qed.

Lemma moving_average_count_positive_witness :
  (exists sum count,
      moving_average_loop test_config [3; 4; 8] 0 5 = Ok (sum, count) /\
      count = 3 /\ 1 <= count) /\
  moving_average_filter test_config [3; 4; 8] (-3) 1 = Fault DivByZero.
Proof.
  destruct (moving_average_count_positive test_config [3; 4; 8] 0 5)
    as (Hcount & _ & Hmiss).
  - repeat constructor; unfold u16, UINT16_MAX; lia.
  - reflexivity.
  - unfold MAX_SAMPLES. simpl. lia.
  - lia.
  - unfold INT_MIN. lia.
  - unfold INT_MAX. lia.
  - vm_compute. discriminate.
  - split; [exact Hcount|].
    apply (Hmiss (-3) 1); unfold INT_MIN, INT_MAX; lia.
Defined.

(** The precondition alone does not give a count: at index 1 with a
    window of [INT_MAX], [index + window] overflows before the first
    iteration, the loop yields no count at all and the function no
    value. *)
Lemma moving_average_count_overflow :
  0 <= 1 < MAX_SAMPLES test_config /\ 0 <= INT_MAX /\
  moving_average_loop test_config [3; 4; 8] 1 INT_MAX = Fault SignedOverflow /\
  moving_average_filter test_config [3; 4; 8] 1 INT_MAX
  = Fault SignedOverflow /\
  ~ (exists sum count,
        moving_average_loop test_config [3; 4; 8] 1 INT_MAX = Ok (sum, count)
        /\ 1 <= count).
Proof.
  assert (Hloop : moving_average_loop test_config [3; 4; 8] 1 INT_MAX
                  = Fault SignedOverflow).
  { unfold moving_average_loop.
    rewrite int_sub_Ok by (unfold INT_MIN, INT_MAX; lia). cbn [bind].
    reflexivity. }
  split; [unfold MAX_SAMPLES; simpl; lia|].
  split; [unfold INT_MAX; lia|]. split; [exact Hloop|]. split.
  - unfold moving_average_filter. rewrite Hloop. reflexivity.
  - intros (sum & count & H & _). rewrite Hloop in H. discriminate.
Qed.

(** * Further properties of the code *)

(** ** The low-pass filter *)

(** Extra X1. For [uint16_t] samples the filter with coefficient 0.1f is
    always defined and its result lies between the smaller input less one
    and the larger input: it smooths, never overshoots, and loses at most
    one count to truncation. *)
Theorem low_pass_filter_between (c p : Z) :
  u16 c -> u16 p ->
  exists v, low_pass_filter c p Float32.tenth = Ok v /\
            Z.min c p - 1 <= v <= Z.max c p.
Proof.
  unfold u16. intros Hc Hp.
  destruct (low_pass_filter_range c p (Z.max c p)) as (v & Hv & Hub);
    [lia|lia|lia|].
  exists v. split; [exact Hv|]. split; [|lia].
  revert Hv. unfold low_pass_filter.
  change (Float32.sub Float32.one Float32.tenth)
    with (S754_finite false 15099494 (-24)).
  set (a := Float32.tenth).
  set (b := S754_finite false 15099494 (-24)).
  destruct (Float32Facts.of_int_exact c Hc) as [Hfc Hvc].
  destruct (Float32Facts.of_int_exact p Hp) as [Hfp Hvp].
  set (fc := Float32.of_int c) in *. set (fp := Float32.of_int p) in *.
  assert (Ha : Float32.sval a = 13421773 * 2 ^ 73) by reflexivity.
  assert (Hb : Float32.sval b = 15099494 * 2 ^ 76) by reflexivity.
  unfold UINT16_MAX in *.
  destruct (Float32Facts.mul_ub a fc (-27) (-23)) as [Ht1 Hu1];
    [simpl; lia|exact Hfc|lia|lia|lia|rewrite Ha, Hvc; lia|].
  destruct (Float32Facts.mul_ub b fp (-24) (-23)) as [Ht2 Hu2];
    [simpl; lia|exact Hfp|lia|lia|lia|rewrite Hb, Hvp; lia|].
  pose proof (Float32Facts.mul_lb a fc (-27) (-23)) as Hl1.
  pose proof (Float32Facts.mul_lb b fp (-24) (-23)) as Hl2.
  rewrite Ha, Hvc in Hu1, Hl1. rewrite Hb, Hvp in Hu2, Hl2.
  specialize (Hl1 ltac:(simpl; lia) Hfc ltac:(lia) ltac:(lia) ltac:(lia)
                  ltac:(lia)).
  specialize (Hl2 ltac:(simpl; lia) Hfp ltac:(lia) ltac:(lia) ltac:(lia)
                  ltac:(lia)).
  set (t1 := Float32.mul a fc) in *. set (t2 := Float32.mul b fp) in *.
  pose proof (Float32Facts.sval_nonneg t1) as Ht10.
  pose proof (Float32Facts.sval_nonneg t2) as Ht20.
  assert (Ht2' : Float32.pfin (-50) t2)
    by (eapply Float32Facts.pfin_weaken; [|exact Ht2]; lia).
  destruct (Float32Facts.add_ub t1 t2 (-50)) as [Hs _];
    [exact Ht1|exact Ht2'|lia|lia|].
  pose proof (Float32Facts.add_grid t1 t2 (-50) (Z.max 0 (Z.min c p - 1))
                Ht1 Ht2' ltac:(lia) ltac:(lia) ltac:(lia) ltac:(lia)) as Hg.
  intros Hv.
  pose proof (Float32Facts.to_uint16_lb _ _ _ _ Hs ltac:(lia) Hg Hv). lia.
Qed.

Lemma low_pass_filter_between_witness :
  low_pass_filter 3 3 Float32.tenth = Ok 2 /\
  exists v, low_pass_filter 4095 17 Float32.tenth = Ok v /\ 16 <= v <= 4095.
Proof.
  split; [vm_compute; reflexivity|].
  destruct (low_pass_filter_between 4095 17) as (v & Hv & Hb).
  - unfold u16, UINT16_MAX. lia.
  - unfold u16, UINT16_MAX. lia.
  - exists v. split; [exact Hv|lia].
Defined.

(** Extra X2. Started from rest (previous value 0) the filter gives exactly
    one tenth of the sample, rounded down: the first cell of every
    recording is the first reading divided by 10. *)
Theorem low_pass_filter_from_rest (c : Z) :
  u16 c -> low_pass_filter c 0 Float32.tenth = Ok (c / 10).
Proof.
  unfold u16. intros Hc. unfold low_pass_filter.
  change (Float32.sub Float32.one Float32.tenth)
    with (S754_finite false 15099494 (-24)).
  change (Float32.mul (S754_finite false 15099494 (-24)) (Float32.of_int 0))
    with (S754_zero false).
  set (a := Float32.tenth).
  destruct (Float32Facts.of_int_exact c Hc) as [Hfc Hvc].
  set (fc := Float32.of_int c) in *.
  assert (Ha : Float32.sval a = 13421773 * 2 ^ 73) by reflexivity.
  unfold UINT16_MAX in *.
  assert (Hq : 0 <= c / 10) by (apply Z.div_pos; lia).
  pose proof (Z.div_mod c 10 ltac:(lia)) as Hdm.
  pose proof (Z.mod_pos_bound c 10 ltac:(lia)) as Hmod.
  destruct (Float32Facts.mul_ub a fc (-27) (-23)) as [Ht1 Hu1];
    [simpl; lia|exact Hfc|lia|lia|lia|rewrite Ha, Hvc; lia|].
  pose proof (Float32Facts.mul_grid a fc (-27) (-23) (c / 10)
                ltac:(simpl; lia) Hfc ltac:(lia) ltac:(lia) ltac:(lia)) as Hg.
  rewrite Ha, Hvc in Hu1, Hg.
  specialize (Hg ltac:(lia) Hq ltac:(lia)).
  set (t1 := Float32.mul a fc) in *.
  assert (Eadd : Float32.to_uint16 (Float32.add t1 (S754_zero false))
                 = Float32.to_uint16 t1).
  { destruct t1 as [[]| | |[] m e]; simpl in Ht1; try contradiction;
      reflexivity. }
  rewrite Eadd.
  destruct (Float32Facts.to_uint16_ub t1 (-27 + -23) (c / 10)) as (t & Et & Hub);
    [exact Ht1|lia|unfold UINT16_MAX; lia|lia|].
  pose proof (Float32Facts.to_uint16_lb _ _ _ _ Ht1 ltac:(lia) Hg Et).
  rewrite Et. f_equal. lia.
Qed.

Lemma low_pass_filter_from_rest_witness :
  low_pass_filter 4095 0 Float32.tenth = Ok 409.
Proof.
  apply (low_pass_filter_from_rest 4095). unfold u16, UINT16_MAX. lia.
Defined.

(** ** Normalisation of part of an array *)

Lemma for_each_app {S : Type} (l1 l2 : list Z) (body : Z -> S -> result S)
    (s : S) :
  for_each (l1 ++ l2) body s
  = (s' <- for_each l1 body s ;; for_each l2 body s').
Proof.
  revert s. induction l1 as [|i l1 IH]; intros s; [reflexivity|].
  cbn [for_each app]. destruct (body i s) as [s1|f]; cbn [bind]; [apply IH|].
  reflexivity.
Qed.

(** The first loop over a run of cells followed by cells it does not
    visit. *)
Lemma peak_scan_within (buf : buffer) : forall (l pre post : buffer) (m : Z),
  buf = pre ++ l ++ post -> 0 <= m ->
  for_each (seqZ (Z.of_nat (length pre)) (Z.of_nat (length l)))
    (fun i max_val =>
       bi <- read buf i ;; Ok (if bi >? max_val then bi else max_val)) m
  = Ok (Z.max m (buffer_max l)).
Proof.
  induction l as [|a l IH]; intros pre post m Hb Hm.
  - simpl. f_equal. lia.
  - simpl length. rewrite seqZ_step. simpl for_each.
    assert (Hr : read buf (Z.of_nat (length pre)) = Ok a)
      by (rewrite Hb; apply read_middle).
    rewrite Hr. cbn [bind].
    rewrite <- (length_snoc_Z pre a), (IH (pre ++ [a]) post).
    + f_equal. simpl. destruct (Z.gtb_spec a m); lia.
    + rewrite Hb, <- app_assoc. reflexivity.
    + destruct (Z.gtb_spec a m); lia.
Qed.

Lemma rescale_scan_within (max_val : Z) : forall (l pre post : buffer),
  0 < max_val <= UINT16_MAX ->
  Forall (fun v => 0 <= v <= max_val) l ->
  for_each (seqZ (Z.of_nat (length pre)) (Z.of_nat (length l)))
    (fun i b =>
       bi <- read b i ;;
       p <- int_mul bi 1023 ;;
       q <- int_div p max_val ;;
       write b i (to_u16 q)) (pre ++ l ++ post)
  = Ok (pre ++ (rescale max_val <$> l) ++ post).
Proof.
  induction l as [|a l IH]; intros pre post Hmax Hl; [reflexivity|].
  inversion Hl as [|? ? Ha Hl']; subst.
  simpl length. rewrite seqZ_step. cbn [for_each].
  change ((a :: l) ++ post) with (a :: l ++ post).
  rewrite rescale_step by done. cbn [bind].
  rewrite (app_cons_assoc pre (rescale max_val a) (l ++ post)).
  rewrite <- (length_snoc_Z pre (rescale max_val a)), IH by done.
  rewrite <- app_assoc. reflexivity.
Qed.

(** The peak of a rescaled buffer is the full scale. *)
Lemma rescaled_peak (b : buffer) :
  wf_buffer b -> 0 < buffer_max b ->
  buffer_max (rescale (buffer_max b) <$> b) = R.
Proof.
  intros Hwf Hmax. pose proof (rescaled_in_range b Hwf Hmax) as Hrange.
  apply Z.le_antisymm.
  - apply buffer_max_le; [unfold R; lia|].
    eapply Forall_impl; [exact Hrange|]. simpl. intros; lia.
  - pose proof (buffer_max_ub (rescale (buffer_max b) <$> b)) as Hub.
    rewrite Forall_forall in Hub.
    assert (Hin : rescale (buffer_max b) (buffer_max b)
                  ∈ rescale (buffer_max b) <$> b).
    { apply list_elem_of_fmap_2, buffer_max_elem, Hmax. }
    specialize (Hub _ Hin). simpl in Hub.
    assert (E : rescale (buffer_max b) (buffer_max b) = R)
      by (unfold rescale; rewrite Z.mul_comm; apply Z.div_mul; lia).
    rewrite E in Hub. exact Hub.
Qed.

Lemma rescale_full_scale (b : buffer) : rescale R <$> b = b.
Proof.
  rewrite <- (list_fmap_id b) at 2. apply list_fmap_ext.
  intros i v _. unfold rescale, R. apply Z.div_mul. lia.
Qed.

Lemma in_output_range_wf (b : buffer) : in_output_range b -> wf_buffer b.
Proof.
  intros H. eapply Forall_impl; [exact H|].
  unfold u16, UINT16_MAX, R. simpl. intros; lia.
Qed.

Lemma rescale_mono (max_val v v' : Z) :
  0 < max_val -> v <= v' -> rescale max_val v <= rescale max_val v'.
Proof.
  intros Hmax Hv. unfold rescale, R.
  apply Z.div_le_mono; lia.
Qed.

(** Extra X3. [normalize_audio] with a length argument of at most the
    array's length normalises the first [len] cells by their own peak and
    leaves the cells after them untouched; with [len <= 0] it changes
    nothing. *)
Theorem normalize_audio_prefix (buf : buffer) (len : Z) :
  wf_buffer buf -> len <= Z.of_nat (length buf) ->
  let head := take (Z.to_nat len) buf in
  let m := buffer_max head in
  normalize_audio buf len
  = Ok ((if m =? 0 then head else (fun v => v * 1023 / m) <$> head)
        ++ drop (Z.to_nat len) buf).
Proof.
  intros Hwf Hlen head m.
  set (tail := drop (Z.to_nat len) buf).
  assert (Hsplit : buf = [] ++ head ++ tail)
    by (unfold head, tail; rewrite take_drop; reflexivity).
  assert (Hhead : Z.to_nat len = length head)
    by (unfold head; rewrite length_take; lia).
  assert (Hseq : seqZ 0 len = seqZ (Z.of_nat (length (@nil Z)))
                                   (Z.of_nat (length head))).
  { destruct (Z_le_gt_dec len 0) as [H0|H0].
    - rewrite <- Hhead. replace (Z.to_nat len) with 0%nat by lia.
      simpl. apply seqZ_nil. lia.
    - rewrite <- Hhead, Z2Nat.id by lia. reflexivity. }
  unfold normalize_audio, for_upto. rewrite Hseq.
  rewrite (peak_scan_within buf head [] tail 0 Hsplit) by lia.
  cbn [bind]. pose proof (buffer_max_nonneg head) as Hnn. fold m in Hnn.
  rewrite Z.max_r by exact Hnn. fold m.
  destruct (Z.eqb_spec m 0) as [E|E].
  - rewrite Hsplit at 1. reflexivity.
  - assert (Hwfh : wf_buffer head) by (apply Forall_take, Hwf).
    rewrite Hsplit at 1.
    rewrite (rescale_scan_within m head [] tail).
    + reflexivity.
    + split; [lia|]. apply buffer_max_u16, Hwfh.
    + apply wf_buffer_below_max, Hwfh.
Qed.

Lemma normalize_audio_prefix_witness :
  normalize_audio [10; 19; 27; 500] 3 = Ok [378; 719; 1023; 500] /\
  normalize_audio [10; 19; 27; 500] (-1) = Ok [10; 19; 27; 500].
Proof.
  split.
  - apply (normalize_audio_prefix [10; 19; 27; 500] 3).
    + repeat constructor; unfold u16, UINT16_MAX; lia.
    + simpl. lia.
  - apply (normalize_audio_prefix [10; 19; 27; 500] (-1)).
    + repeat constructor; unfold u16, UINT16_MAX; lia.
    + simpl. lia.
Defined.

(** Extra X4. With a length argument beyond the array's length the first
    loop of [normalize_audio] reads past the last cell: the call is an
    out-of-bounds access, whatever the array holds. *)
Theorem normalize_audio_out_of_bounds (buf : buffer) (len : Z) :
  Z.of_nat (length buf) < len ->
  normalize_audio buf len = Fault OutOfBounds.
Proof.
  intros Hlen. unfold normalize_audio, for_upto.
  set (n := Z.of_nat (length buf)).
  replace len with (n + (len - n)) by lia.
  rewrite seqZ_app by lia. rewrite for_each_app.
  pose proof (peak_scan_within buf buf [] [] 0) as Hpeak.
  rewrite app_nil_r in Hpeak. specialize (Hpeak eq_refl ltac:(lia)).
  change (Z.of_nat (length [])) with 0 in Hpeak. fold n in Hpeak.
  rewrite Hpeak. cbn [bind]. rewrite Z.add_0_l, seqZ_cons by lia.
  cbn [for_each].
  assert (Hr : read buf n = Fault OutOfBounds).
  { unfold read, n. replace (_ <? 0) with false by fails.
    rewrite Nat2Z.id, lookup_ge_None_2 by lia. reflexivity. }
  rewrite Hr. reflexivity.
Qed.

Lemma normalize_audio_out_of_bounds_witness :
  normalize_audio [10; 19; 27] 4 = Fault OutOfBounds.
Proof. apply normalize_audio_out_of_bounds. simpl. lia. Defined.

(** Extra X5. Normalising twice is normalising once: on the buffer a
    call to [normalize_audio] returns, a second call changes nothing,
    whether the first one rescaled or found silence. *)
Theorem normalize_audio_idempotent (b b' : buffer) :
  wf_buffer b ->
  normalize_audio b (Z.of_nat (length b)) = Ok b' ->
  normalize_audio b' (Z.of_nat (length b')) = Ok b'.
Proof.
  intros Hwf Hnorm. pose proof (buffer_max_nonneg b) as Hnn.
  destruct (Z.eq_dec (buffer_max b) 0) as [E|E].
  - rewrite normalize_audio_peak_zero in Hnorm by exact E.
    injection Hnorm as <-. apply normalize_audio_peak_zero, E.
  - assert (Hpos : 0 < buffer_max b) by lia.
    rewrite normalize_audio_peak_pos in Hnorm by assumption.
    injection Hnorm as <-.
    rewrite normalize_audio_peak_pos.
    + rewrite rescaled_peak by assumption. f_equal. apply rescale_full_scale.
    + apply in_output_range_wf, rescaled_in_range; assumption.
    + rewrite rescaled_peak by assumption. unfold R. lia.
Qed.

Lemma normalize_audio_idempotent_witness :
  normalize_audio [378; 719; 1023; 0] 4 = Ok [378; 719; 1023; 0].
Proof.
  apply (normalize_audio_idempotent [10; 19; 27; 0]).
  - repeat constructor; unfold u16, UINT16_MAX; lia.
  - vm_compute. reflexivity.
Defined.

(** Extra X6. Normalisation keeps the shape of the recording: the array
    keeps its length, a cell that was not larger than another is not
    larger afterwards, and a cell that was 0 stays 0. *)
Theorem normalize_audio_keeps_order (b b' : buffer) :
  wf_buffer b ->
  normalize_audio b (Z.of_nat (length b)) = Ok b' ->
  length b' = length b /\
  forall (i j : nat) (vi vj vi' vj' : Z),
    b !! i = Some vi -> b !! j = Some vj ->
    b' !! i = Some vi' -> b' !! j = Some vj' ->
    (vi <= vj -> vi' <= vj') /\ (vi = 0 -> vi' = 0).
Proof.
  intros Hwf Hnorm. pose proof (buffer_max_nonneg b) as Hnn.
  destruct (Z.eq_dec (buffer_max b) 0) as [E|E].
  - rewrite normalize_audio_peak_zero in Hnorm by exact E.
    injection Hnorm as <-. split; [reflexivity|].
    intros i j vi vj vi' vj' Hi Hj Hi' Hj'.
    rewrite Hi in Hi'. rewrite Hj in Hj'.
    injection Hi' as <-. injection Hj' as <-. split; [lia|trivial].
  - assert (Hpos : 0 < buffer_max b) by lia.
    rewrite normalize_audio_peak_pos in Hnorm by assumption.
    injection Hnorm as <-. split; [apply length_fmap|].
    intros i j vi vj vi' vj' Hi Hj Hi' Hj'.
    rewrite list_lookup_fmap, Hi in Hi'. rewrite list_lookup_fmap, Hj in Hj'.
    injection Hi' as <-. injection Hj' as <-. split.
    + apply rescale_mono, Hpos.
    + intros ->. unfold rescale. apply Z.div_0_l. lia.
Qed.

Lemma normalize_audio_keeps_order_witness :
  exists b', normalize_audio [27; 0; 10; 19] 4 = Ok b' /\
             length b' = 4%nat /\ b' !! 1%nat = Some 0.
Proof.
  destruct (normalize_audio [27; 0; 10; 19] 4) as [b'|] eqn:E;
    [|vm_compute in E; discriminate E].
  destruct (normalize_audio_keeps_order [27; 0; 10; 19] b') as [Hlen Hord].
  - repeat constructor; unfold u16, UINT16_MAX; lia.
  - exact E.
  - simpl in Hlen. exists b'. split; [reflexivity|]. split; [exact Hlen|].
    destruct (lookup_lt_is_Some_2 b' 1%nat ltac:(lia)) as [v Hv].
    destruct (Hord 1%nat 1%nat 0 0 v v eq_refl eq_refl Hv Hv) as [_ H0].
    rewrite Hv, (H0 eq_refl). reflexivity.
Defined.

(** ** Capture and playback together *)

Lemma pwm_writes_playback (cfg : config) (b : buffer) :
  pwm_writes (playback_events cfg b)
  = flat_map (fun v => [(5, 0, v); (2, 1, v)]) b ++ [(5, 0, 0); (2, 1, 0)].
Proof.
  unfold playback_events. rewrite !pwm_writes_app, pwm_writes_play.
  reflexivity.
Qed.

(** [reproduz_audio] on an array of [MAX_SAMPLES] cells. *)
Lemma reproduz_audio_ok (cfg : config) (w : world) :
  wf_world cfg w ->
  reproduz_audio cfg w
  = Ok {| adc_source := adc_source w; adc_taken := adc_taken w;
          audio_buffer := audio_buffer w;
          trace := trace w ++ playback_events cfg (audio_buffer w) |}.
Proof.
  intros Hw. unfold reproduz_audio, for_upto. unfold wf_world in Hw.
  rewrite <- Hw.
  pose proof (reproduz_scan cfg (audio_buffer w) []
                (gpio_put LED_GREEN_PIN true w) eq_refl) as Hscan.
  change (Z.of_nat (length [])) with 0 in Hscan. rewrite Hscan.
  cbn [bind]. unfold play_sample, pwm_set_chan_level, gpio_put, emit.
  unfold playback_events. simpl. rewrite <- !app_assoc. reflexivity.
Qed.

(** [grava_audio] on an array of [MAX_SAMPLES] cells, for every ADC. *)
Lemma grava_audio_ok (cfg : config) (w : world) :
  wf_world cfg w ->
  let n := length (audio_buffer w) in
  exists fs b',
    filter_run Float32.tenth 0 (adc_window w n) = Ok fs /\
    length fs = n /\ wf_buffer fs /\
    normalize_audio fs (Z.of_nat (length fs)) = Ok b' /\
    length b' = n /\ in_output_range b' /\
    grava_audio cfg w
    = Ok {| adc_source := adc_source w;
            adc_taken := adc_taken w + n;
            audio_buffer := b';
            trace := trace w ++ [EvGpioPut LED_RED_PIN true]
                     ++ replicate n (EvSleepUs (tick_us cfg))
                     ++ [EvGpioPut LED_RED_PIN false] |}.
Proof.
  intros Hw n.
  destruct (grava_audio_loop_spec cfg w UINT16_MAX Hw)
    as (fs & Hrun & Hlen & Hfs & Hloop);
    [unfold UINT16_MAX; lia|apply adc_window_u16|].
  destruct (normalize_audio_range fs Hfs) as (b' & Hnorm & Hlen' & Hrange).
  exists fs, b'. split; [exact Hrun|]. split; [exact Hlen|].
  split; [exact Hfs|]. split; [exact Hnorm|]. split; [unfold n; lia|].
  split; [exact Hrange|].
  assert (Hnorm' : normalize_audio fs (MAX_SAMPLES cfg) = Ok b').
  { unfold wf_world in Hw. rewrite <- Hw, <- Hlen. exact Hnorm. }
  unfold grava_audio. rewrite Hloop. cbn [bind audio_buffer].
  rewrite Hnorm'. cbn [bind].
  unfold gpio_put, emit, set_audio_buffer. simpl. fold n.
  rewrite <- !app_assoc. reflexivity.
Qed.

(** Extra X7. A recording followed by a playback never faults, and the
    playback drives both buzzers with exactly the recorded, normalised
    samples: every PWM level it writes lies in [0, 1023], the wrap value
    the PWM slices are set up with. *)
Theorem record_then_play (cfg : config) (w : world) :
  wf_world cfg w ->
  exists w1 w2 played,
    grava_audio cfg w = Ok w1 /\
    reproduz_audio cfg w1 = Ok w2 /\
    audio_buffer w2 = audio_buffer w1 /\
    trace w2 = trace w1 ++ played /\
    pwm_writes played
    = flat_map (fun v => [(5, 0, v); (2, 1, v)]) (audio_buffer w1)
      ++ [(5, 0, 0); (2, 1, 0)] /\
    Forall (fun x => 0 <= x.2 <= 1023) (pwm_writes played).
Proof.
  intros Hw.
  destruct (grava_audio_ok cfg w Hw)
    as (fs & b' & _ & _ & _ & _ & Hlen & Hrange & Hgrava).
  eexists. eexists. exists (playback_events cfg b').
  split; [exact Hgrava|]. split.
  { rewrite reproduz_audio_ok; [reflexivity|].
    unfold wf_world in *. simpl. lia. }
  split; [reflexivity|]. split; [reflexivity|].
  split; [apply pwm_writes_playback|].
  rewrite pwm_writes_playback. apply Forall_app. split.
  - clear Hlen Hgrava. induction Hrange as [|v b Hv _ IH]; [constructor|].
    cbn [flat_map app]. unfold R in Hv.
    constructor; [exact Hv|]. constructor; [exact Hv|]. exact IH.
  - repeat constructor; simpl; lia.
Qed.

Lemma record_then_play_witness :
  exists w1 w2,
    grava_audio test_config (power_on test_config full_scale_adc) = Ok w1 /\
    reproduz_audio test_config w1 = Ok w2 /\
    Forall (fun x => 0 <= x.2 <= 1023)
      (pwm_writes (drop (length (trace w1)) (trace w2))).
Proof.
  destruct (record_then_play test_config (power_on test_config full_scale_adc))
    as (w1 & w2 & played & Hg & Hp & _ & Ht & _ & Hrange).
  - reflexivity.
  - exists w1, w2. split; [exact Hg|]. split; [exact Hp|].
    rewrite Ht, drop_app_length. exact Hrange.
Defined.

Lemma adc_window_ext (w1 w2 : world) (n : nat) :
  (forall k, adc_source w1 k = adc_source w2 k) ->
  adc_taken w1 = adc_taken w2 ->
  adc_window w1 n = adc_window w2 n.
Proof.
  intros Hsrc Htaken. unfold adc_window. rewrite Htaken.
  apply list_fmap_ext. intros i k _. simpl. rewrite Hsrc. reflexivity.
Qed.

Lemma all_zero_replicate (b : buffer) :
  Forall (fun v => 0 <= v <= 0) b -> b = replicate (length b) 0.
Proof.
  induction 1 as [|v b Hv _ IH]; [reflexivity|].
  simpl. rewrite <- IH. f_equal. lia.
Qed.

Lemma buffer_max_zero_replicate (b : buffer) :
  wf_buffer b -> buffer_max b = 0 -> b = replicate (length b) 0.
Proof.
  intros Hwf Hmax. apply all_zero_replicate.
  pose proof (wf_buffer_below_max b Hwf) as H. rewrite Hmax in H. exact H.
Qed.

(** Extra X8. A recording depends on the ADC readings alone: on two
    boards that will read the same conversions, whatever their buffers
    held before, [grava_audio] leaves the same buffer. Nothing of an
    earlier recording, and no filter state, carries over. *)
Theorem grava_audio_forgets (cfg : config) (w1 w2 : world) :
  wf_world cfg w1 -> wf_world cfg w2 ->
  (forall k, adc_source w1 k = adc_source w2 k) ->
  adc_taken w1 = adc_taken w2 ->
  exists w1' w2',
    grava_audio cfg w1 = Ok w1' /\ grava_audio cfg w2 = Ok w2' /\
    audio_buffer w1' = audio_buffer w2'.
Proof.
  intros Hw1 Hw2 Hsrc Htaken.
  destruct (grava_audio_ok cfg w1 Hw1)
    as (fs1 & b1 & Hrun1 & _ & _ & Hn1 & _ & _ & Hg1).
  destruct (grava_audio_ok cfg w2 Hw2)
    as (fs2 & b2 & Hrun2 & _ & _ & Hn2 & _ & _ & Hg2).
  eexists. eexists. split; [exact Hg1|]. split; [exact Hg2|]. simpl.
  assert (Hlen : length (audio_buffer w1) = length (audio_buffer w2))
    by (unfold wf_world in *; lia).
  rewrite Hlen, (adc_window_ext w1 w2 _ Hsrc Htaken), Hrun2 in Hrun1.
  injection Hrun1 as <-. rewrite Hn2 in Hn1. injection Hn1 as <-.
  reflexivity.
Qed.

Lemma grava_audio_forgets_witness :
  exists w1' w2',
    grava_audio test_config (power_on test_config (fun _ => 100)) = Ok w1' /\
    grava_audio test_config
      {| adc_source := fun _ => 100; adc_taken := 0;
         audio_buffer := [1023; 5; 77]; trace := [EvSleepUs 1] |} = Ok w2' /\
    audio_buffer w1' = audio_buffer w2'.
Proof.
  apply grava_audio_forgets; reflexivity.
Defined.

(** Extra X9. A silent input gives a silent recording and a silent
    playback: when every conversion is 0, [grava_audio] leaves a buffer of
    zeros (the normalisation guard keeps it), and [reproduz_audio] then
    writes level 0 only. *)
Theorem silent_capture (cfg : config) (w : world) :
  wf_world cfg w -> (forall k, adc_source w k = 0) ->
  exists w1 w2 played,
    grava_audio cfg w = Ok w1 /\
    audio_buffer w1 = replicate (length (audio_buffer w)) 0 /\
    reproduz_audio cfg w1 = Ok w2 /\
    trace w2 = trace w1 ++ played /\
    Forall (fun x => x.2 = 0) (pwm_writes played).
Proof.
  intros Hw Hsrc.
  destruct (grava_audio_loop_spec cfg w 0 Hw) as (fs0 & Hrun0 & _ & Hfs0 & _).
  { unfold UINT16_MAX. lia. }
  { apply adc_window_bounded; [unfold UINT16_MAX; lia|].
    intros k. rewrite Hsrc. lia. }
  destruct (grava_audio_ok cfg w Hw)
    as (fs & b' & Hrun & Hlen & Hwf & Hnorm & Hlen' & _ & Hgrava).
  rewrite Hrun0 in Hrun. injection Hrun as <-.
  assert (Hzero : fs0 = replicate (length fs0) 0)
    by (apply all_zero_replicate, Hfs0).
  assert (Hmax : buffer_max fs0 = 0).
  { pose proof (buffer_max_nonneg fs0).
    assert (buffer_max fs0 <= 0); [|lia].
    apply buffer_max_le; [lia|].
    eapply Forall_impl; [exact Hfs0|]. simpl. intros; lia. }
  rewrite normalize_audio_peak_zero in Hnorm by exact Hmax.
  injection Hnorm as <-.
  eexists. eexists. exists (playback_events cfg fs0).
  split; [exact Hgrava|]. split; [simpl; rewrite <- Hlen; exact Hzero|].
  split.
  { rewrite reproduz_audio_ok; [reflexivity|].
    unfold wf_world in *. simpl. lia. }
  split; [reflexivity|].
  rewrite pwm_writes_playback. apply Forall_app. split.
  - clear -Hfs0. induction Hfs0 as [|v b Hv _ IH]; [constructor|].
    cbn [flat_map app]. constructor; [simpl; lia|].
    constructor; [simpl; lia|]. exact IH.
  - repeat constructor.
Qed.

Lemma silent_capture_witness :
  exists w1,
    grava_audio test_config (power_on test_config (fun _ => 0)) = Ok w1 /\
    audio_buffer w1 = [0; 0; 0].
Proof.
  destruct (silent_capture test_config (power_on test_config (fun _ => 0)))
    as (w1 & _ & _ & Hg & Hb & _).
  - reflexivity.
  - reflexivity.
  - exists w1. split; [exact Hg|exact Hb].
Defined.

(** Extra X10. Every recording ends either silent or at full scale: after
    [grava_audio] the buffer is all zeros, or its largest entry is exactly
    1023. *)
Theorem grava_audio_peak (cfg : config) (w : world) :
  wf_world cfg w ->
  exists w',
    grava_audio cfg w = Ok w' /\
    (audio_buffer w' = replicate (length (audio_buffer w)) 0 \/
     buffer_max (audio_buffer w') = 1023).
Proof.
  intros Hw.
  destruct (grava_audio_ok cfg w Hw)
    as (fs & b' & _ & Hlen & Hwf & Hnorm & _ & _ & Hgrava).
  eexists. split; [exact Hgrava|]. simpl.
  pose proof (buffer_max_nonneg fs) as Hnn.
  destruct (Z.eq_dec (buffer_max fs) 0) as [E|E].
  - left. rewrite normalize_audio_peak_zero in Hnorm by exact E.
    injection Hnorm as <-. rewrite <- Hlen.
    apply buffer_max_zero_replicate; assumption.
  - right. rewrite normalize_audio_peak_pos in Hnorm by (assumption || lia).
    injection Hnorm as <-. apply rescaled_peak; [assumption|lia].
Qed.

Lemma grava_audio_peak_witness :
  exists w',
    grava_audio test_config (power_on test_config (fun k => Z.of_nat k)) = Ok w'
    /\ (audio_buffer w' = [0; 0; 0] \/ buffer_max (audio_buffer w') = 1023).
Proof.
  destruct (grava_audio_peak test_config
              (power_on test_config (fun k => Z.of_nat k))) as (w' & Hg & Hp).
  - reflexivity.
  - exists w'. split; [exact Hg|exact Hp].
Defined.

(** Extra X11. Playback can be repeated: [reproduz_audio] changes neither
    the buffer nor the ADC, so a second playback issues exactly the calls
    of the first. *)
Theorem reproduz_audio_repeatable (cfg : config) (w : world) :
  wf_world cfg w ->
  exists w1 w2 played,
    reproduz_audio cfg w = Ok w1 /\ reproduz_audio cfg w1 = Ok w2 /\
    trace w1 = trace w ++ played /\ trace w2 = trace w1 ++ played /\
    audio_buffer w2 = audio_buffer w /\ adc_taken w2 = adc_taken w.
Proof.
  intros Hw. eexists. eexists. exists (playback_events cfg (audio_buffer w)).
  split; [apply reproduz_audio_ok, Hw|]. split.
  { rewrite reproduz_audio_ok; [reflexivity|exact Hw]. }
  repeat split.
Qed.

Lemma reproduz_audio_repeatable_witness :
  exists w1 w2,
    reproduz_audio test_config (power_on test_config (fun _ => 0)) = Ok w1 /\
    reproduz_audio test_config w1 = Ok w2 /\
    trace w2 = trace w1 ++ trace w1.
Proof.
  destruct (reproduz_audio_repeatable test_config
              (power_on test_config (fun _ => 0)))
    as (w1 & w2 & played & H1 & H2 & Ht1 & Ht2 & _).
  - reflexivity.
  - exists w1, w2. split; [exact H1|]. split; [exact H2|].
    rewrite Ht2. f_equal. rewrite Ht1. reflexivity.
Defined.

Lemma last_level_snoc (slice chan v : Z) (ws : list (Z * Z * Z)) :
  last_level slice chan (ws ++ [(slice, chan, v)]) = Some v.
Proof.
  unfold last_level. rewrite omap_app. cbn [omap list_omap].
  rewrite !Z.eqb_refl. simpl. apply last_snoc.
Qed.

Lemma last_level_skip (slice chan s c v : Z) (ws : list (Z * Z * Z)) :
  (s =? slice) && (c =? chan) = false ->
  last_level slice chan (ws ++ [(s, c, v)]) = last_level slice chan ws.
Proof.
  intros H. unfold last_level. rewrite omap_app.
  cbn [omap list_omap fst snd]. rewrite H. simpl. rewrite app_nil_r.
  reflexivity.
Qed.

(** Extra X12. Playback always ends in silence: whatever the buffer holds
    and whatever was written before, after [reproduz_audio] the last level
    written to the left buzzer's channel and the last level written to
    the right buzzer's channel are both 0. *)
Theorem reproduz_audio_ends_silent (cfg : config) (w : world) :
  wf_world cfg w ->
  exists w',
    reproduz_audio cfg w = Ok w' /\
    last_level (pwm_gpio_to_slice_num BUZZER_LEFT)
      (pwm_gpio_to_channel BUZZER_LEFT) (pwm_writes (trace w')) = Some 0 /\
    last_level (pwm_gpio_to_slice_num BUZZER_RIGHT)
      (pwm_gpio_to_channel BUZZER_RIGHT) (pwm_writes (trace w')) = Some 0.
Proof.
  intros Hw. eexists. split; [apply reproduz_audio_ok, Hw|].
  cbn [trace]. rewrite pwm_writes_app, pwm_writes_playback.
  set (ws := pwm_writes (trace w)
             ++ flat_map (fun v => [(5, 0, v); (2, 1, v)]) (audio_buffer w)).
  split.
  - replace (_ ++ _ ++ [(5, 0, 0); (2, 1, 0)])
      with ((ws ++ [(5, 0, 0)]) ++ [(2, 1, 0)])
      by (unfold ws; rewrite <- !app_assoc; reflexivity).
    rewrite last_level_skip by reflexivity. apply (last_level_snoc 5 0 0).
  - replace (_ ++ _ ++ [(5, 0, 0); (2, 1, 0)])
      with ((ws ++ [(5, 0, 0)]) ++ [(2, 1, 0)])
      by (unfold ws; rewrite <- !app_assoc; reflexivity).
    apply (last_level_snoc 2 1 0).
Qed.

Lemma reproduz_audio_ends_silent_witness :
  exists w',
    reproduz_audio test_config
      {| adc_source := fun _ => 0; adc_taken := 3;
         audio_buffer := [378; 719; 1023]; trace := [] |} = Ok w' /\
    last_level 5 0 (pwm_writes (trace w')) = Some 0 /\
    last_level 2 1 (pwm_writes (trace w')) = Some 0.
Proof.
  apply (reproduz_audio_ends_silent test_config). reflexivity.
Defined.

(** ** The moving average at its edges *)

(** The mean the function returns when its loop runs without overflow. *)
Lemma moving_average_filter_ok (cfg : config) (buf : buffer)
    (index window : Z) :
  wf_buffer buf ->
  Z.of_nat (length buf) = MAX_SAMPLES cfg -> MAX_SAMPLES cfg <= INT_MAX ->
  0 <= index < MAX_SAMPLES cfg -> 0 <= window -> index + window < INT_MAX ->
  sum_list_Z (window_entries cfg buf index window) <= INT_MAX ->
  moving_average_filter cfg buf index window
  = Ok (window_mean cfg buf index window) /\
  0 <= window_mean cfg buf index window <= UINT16_MAX.
Proof.
  intros Hwf Hlen HN Hi Hw Hhi Hsum.
  pose proof (window_entries_slice cfg buf index window Hlen Hi Hw) as Hslice.
  cbv zeta in Hslice.
  set (es := window_entries cfg buf index window) in *.
  assert (Hes : Forall u16 es) by apply (pick_u16 cfg buf Hwf).
  assert (Hcnt : 1 <= Z.of_nat (length es) <= MAX_SAMPLES cfg).
  { rewrite Hslice, length_take, length_drop. lia. }
  assert (Hnn : 0 <= sum_list_Z es).
  { apply sum_list_Z_nonneg. eapply Forall_impl; [exact Hes|].
    unfold u16. simpl. intros; lia. }
  assert (Hub : sum_list_Z es <= UINT16_MAX * Z.of_nat (length es)).
  { apply sum_list_Z_ub. eapply Forall_impl; [exact Hes|].
    unfold u16. simpl. intros; lia. }
  unfold INT_MAX, INT_MIN, UINT16_MAX in *.
  assert (Hq : 0 <= Z.quot (sum_list_Z es) (Z.of_nat (length es)) <= 65535).
  { rewrite Z.quot_div_nonneg by lia. split; [apply Z.div_pos; lia|].
    apply Z.div_le_upper_bound; lia. }
  split; [|unfold window_mean; fold es; exact Hq].
  unfold moving_average_filter, moving_average_loop.
  rewrite int_sub_Ok, int_add_Ok by (unfold INT_MIN, INT_MAX; lia).
  cbn [bind].
  replace (index + window - (index - window) + 1) with (2 * window + 1) by lia.
  pose proof (moving_average_scan cfg buf Hwf Hlen
                (seqZ (index - window) (2 * window + 1)) 0 0) as Hscan.
  change (omap (window_pick cfg buf) (seqZ (index - window) (2 * window + 1)))
    with es in Hscan.
  rewrite Hscan;
    [|apply Forall_seqZ; unfold INT_MIN, INT_MAX; intros; lia
     |unfold INT_MAX; lia..].
  cbn [bind fst snd]. rewrite !Z.add_0_l.
  unfold window_mean. fold es. unfold int_div.
  replace (_ =? 0) with false by fails.
  rewrite int_of_Ok by (unfold INT_MIN, INT_MAX; lia). cbn [bind].
  unfold to_u16. rewrite Z.mod_small by lia. reflexivity.
Qed.

(** Extra X13. With a window of 0 the moving average is the identity: it
    returns the cell at [index] itself. *)
Theorem moving_average_window_zero (cfg : config) (buf : buffer)
    (index v : Z) :
  wf_buffer buf ->
  Z.of_nat (length buf) = MAX_SAMPLES cfg -> MAX_SAMPLES cfg <= INT_MAX ->
  0 <= index -> buf !! Z.to_nat index = Some v ->
  moving_average_filter cfg buf index 0 = Ok v.
Proof.
  intros Hwf Hlen HN Hi Hv.
  assert (Hlt : index < MAX_SAMPLES cfg).
  { apply lookup_lt_Some in Hv. lia. }
  assert (Hv16 : u16 v).
  { unfold wf_buffer in Hwf. rewrite Forall_lookup in Hwf. eapply Hwf, Hv. }
  assert (Hes : window_entries cfg buf index 0 = [v]).
  { rewrite window_entries_slice by (assumption || lia).
    replace (Z.max 0 (index - 0)) with index by lia.
    replace (Z.min (MAX_SAMPLES cfg - 1) (index + 0) - index + 1) with 1 by lia.
    rewrite (drop_S _ _ _ Hv). reflexivity. }
  destruct (moving_average_filter_ok cfg buf index 0) as [Hmean _];
    try assumption; try lia.
  - rewrite Hes. unfold u16, UINT16_MAX, INT_MAX in *. simpl. lia.
  - rewrite Hmean. unfold window_mean. rewrite Hes. simpl.
    rewrite Z.add_0_r, Z.quot_1_r. reflexivity.
Qed.

Lemma moving_average_window_zero_witness :
  moving_average_filter test_config8 [6; 12; 18; 24; 30; 37; 900; 1000] 6 0
  = Ok 900.
Proof.
  apply moving_average_window_zero.
  - repeat constructor; unfold u16, UINT16_MAX; lia.
  - reflexivity.
  - vm_compute. discriminate.
  - lia.
  - reflexivity.
Defined.

(** Extra X14. A window that covers the whole array gives the same value
    at every index: the mean of all [MAX_SAMPLES] cells. *)
Theorem moving_average_whole_buffer (cfg : config) (buf : buffer)
    (index window : Z) :
  wf_buffer buf ->
  Z.of_nat (length buf) = MAX_SAMPLES cfg -> MAX_SAMPLES cfg <= INT_MAX ->
  0 <= index < MAX_SAMPLES cfg -> MAX_SAMPLES cfg - 1 <= window ->
  index + window < INT_MAX -> sum_list_Z buf <= INT_MAX ->
  moving_average_filter cfg buf index window
  = Ok (sum_list_Z buf / MAX_SAMPLES cfg).
Proof.
  intros Hwf Hlen HN Hi Hw Hhi Hsum.
  assert (Hes : window_entries cfg buf index window = buf).
  { rewrite window_entries_slice by (assumption || lia).
    replace (Z.max 0 (index - window)) with 0 by lia.
    replace (Z.min (MAX_SAMPLES cfg - 1) (index + window) - 0 + 1)
      with (Z.of_nat (length buf)) by lia.
    rewrite Nat2Z.id. simpl. apply take_ge. lia. }
  destruct (moving_average_filter_ok cfg buf index window) as [Hmean _];
    try assumption; try lia.
  - rewrite Hes. exact Hsum.
  - rewrite Hmean. unfold window_mean. rewrite Hes, Hlen. f_equal.
    apply Z.quot_div_nonneg; [|lia].
    apply sum_list_Z_nonneg. eapply Forall_impl; [exact Hwf|].
    unfold u16. simpl. intros; lia.
Qed.

Lemma moving_average_whole_buffer_witness :
  moving_average_filter test_config [3; 4; 8] 0 2 = Ok 5 /\
  moving_average_filter test_config [3; 4; 8] 2 7 = Ok 5.
Proof.
  split.
  - apply (moving_average_whole_buffer test_config [3; 4; 8] 0 2).
    + repeat constructor; unfold u16, UINT16_MAX; lia.
    + reflexivity.
    + vm_compute. discriminate.
    + unfold MAX_SAMPLES. simpl. lia.
    + unfold MAX_SAMPLES. simpl. lia.
    + unfold INT_MAX. lia.
    + vm_compute. discriminate.
  - apply (moving_average_whole_buffer test_config [3; 4; 8] 2 7).
    + repeat constructor; unfold u16, UINT16_MAX; lia.
    + reflexivity.
    + vm_compute. discriminate.
    + unfold MAX_SAMPLES. simpl. lia.
    + unfold MAX_SAMPLES. simpl. lia.
    + unfold INT_MAX. lia.
    + vm_compute. discriminate.
Defined.

(** Extra X15. A negative window makes the loop run no turn at all, for
    every index, inside the array or not: the count stays 0 and the
    function divides by zero. *)
Theorem moving_average_negative_window (cfg : config) (buf : buffer)
    (index window : Z) :
  window < 0 -> INT_MIN <= index + window -> index - window <= INT_MAX ->
  moving_average_loop cfg buf index window = Ok (0, 0) /\
  moving_average_filter cfg buf index window = Fault DivByZero.
Proof.
  intros Hw Hlo Hhi.
  assert (Hloop : moving_average_loop cfg buf index window = Ok (0, 0)).
  { unfold moving_average_loop.
    rewrite int_sub_Ok, int_add_Ok by lia. cbn [bind].
    rewrite seqZ_nil by lia. reflexivity. }
  split; [exact Hloop|].
  unfold moving_average_filter. rewrite Hloop. reflexivity.
Qed.

Lemma moving_average_negative_window_witness :
  moving_average_filter test_config [3; 4; 8] 1 (-1) = Fault DivByZero.
Proof.
  apply (moving_average_negative_window test_config [3; 4; 8] 1 (-1));
    unfold INT_MIN, INT_MAX; lia.
Defined.

(** Extra X16. Smoothing a normalised buffer stays in the output range and
    never faults: when [MAX_SAMPLES * 1023] fits an [int], as in the build
    of the source, the moving average of a buffer of samples in [0, 1023]
    is defined at every index of the array, for every window that is not
    negative and keeps [index + window] below [INT_MAX], and lies in
    [0, 1023]. *)
Theorem moving_average_in_output_range (cfg : config) (buf : buffer)
    (index window : Z) :
  in_output_range buf ->
  Z.of_nat (length buf) = MAX_SAMPLES cfg -> MAX_SAMPLES cfg * R <= INT_MAX ->
  0 <= index < MAX_SAMPLES cfg -> 0 <= window -> index + window < INT_MAX ->
  exists v, moving_average_filter cfg buf index window = Ok v /\
            0 <= v <= R.
Proof.
  intros Hrange Hlen HN Hi Hw Hhi.
  pose proof (window_sum_fits cfg buf index window Hrange Hlen HN Hi Hw) as Hsum.
  assert (HN' : MAX_SAMPLES cfg <= INT_MAX) by (unfold R in HN; lia).
  destruct (moving_average_filter_ok cfg buf index window) as [Hmean Hnn];
    try assumption; [apply in_output_range_wf, Hrange|].
  exists (window_mean cfg buf index window). split; [exact Hmean|].
  split; [lia|]. unfold window_mean.
  pose proof (window_entries_slice cfg buf index window Hlen Hi Hw) as Hslice.
  cbv zeta in Hslice.
  set (es := window_entries cfg buf index window) in *.
  assert (Hes : Forall (fun v => v <= R) es).
  { rewrite Hslice. apply Forall_take, Forall_drop.
    eapply Forall_impl; [exact Hrange|]. simpl. intros; lia. }
  assert (Hes0 : Forall (fun v => 0 <= v) es).
  { rewrite Hslice. apply Forall_take, Forall_drop.
    eapply Forall_impl; [exact Hrange|]. simpl. intros; lia. }
  apply sum_list_Z_ub in Hes. apply sum_list_Z_nonneg in Hes0.
  assert (Hcnt : 1 <= Z.of_nat (length es)).
  { rewrite Hslice, length_take, length_drop. lia. }
  rewrite Z.quot_div_nonneg by lia.
  apply Z.div_le_upper_bound; lia.
Qed.

Lemma moving_average_in_output_range_witness :
  exists v,
    moving_average_filter test_config8 [6; 12; 18; 24; 30; 37; 900; 1000] 6 2
    = Ok v /\ 0 <= v <= 1023.
Proof.
  apply (moving_average_in_output_range test_config8).
  - repeat constructor; unfold R; lia.
  - reflexivity.
  - vm_compute. discriminate.
  - unfold MAX_SAMPLES. simpl. lia.
  - lia.
  - unfold INT_MAX. lia.
Defined.

(** ** The main loop *)

Lemma new_events_app (w w' : world) (es : list event) :
  trace w' = trace w ++ es -> new_events w w' = es.
Proof. intros H. unfold new_events. rewrite H. apply drop_app_length. Qed.

Lemma main_setup_spec (b : board) :
  calls (main_setup b) = calls b ++ setup_calls /\
  pins (main_setup b) = pins b /\ polls (main_setup b) = polls b /\
  audio_buffer (core (main_setup b)) = audio_buffer (core b) /\
  adc_source (core (main_setup b)) = adc_source (core b) /\
  adc_taken (core (main_setup b)) = adc_taken (core b).
Proof.
  destruct b as [w lv k cs]. unfold main_setup, pwm_setup, with_core.
  cbn [core pins polls calls sdk gpio_start adc_setup].
  unfold pwm_set_chan_level.
  rewrite !(new_events_app _ _ [_]) by reflexivity.
  split; [|repeat split].
  cbn [calls fmap list_fmap]. rewrite <- !app_assoc. reflexivity.
Qed.

Lemma on_core_grava (cfg : config) (b : board) :
  wf_world cfg (core b) ->
  exists b',
    on_core (grava_audio cfg) b = Ok b' /\
    calls b' = calls b
               ++ (Core <$> record_events cfg (length (audio_buffer (core b))))
    /\ pins b' = pins b /\ polls b' = polls b /\
    wf_world cfg (core b') /\ in_output_range (audio_buffer (core b')).
Proof.
  intros Hw.
  destruct (grava_audio_ok cfg (core b) Hw)
    as (fs & b' & _ & _ & _ & _ & Hlen & Hrange & Hgrava).
  unfold on_core. rewrite Hgrava. cbn [bind].
  eexists. split; [reflexivity|].
  unfold with_core. cbn [calls pins polls core audio_buffer].
  rewrite (new_events_app _ _
             (record_events cfg (length (audio_buffer (core b)))))
    by reflexivity.
  split; [reflexivity|]. split; [reflexivity|]. split; [reflexivity|].
  split; [|exact Hrange]. unfold wf_world in *. simpl. lia.
Qed.

Lemma on_core_reproduz (cfg : config) (b : board) :
  wf_world cfg (core b) ->
  exists b',
    on_core (reproduz_audio cfg) b = Ok b' /\
    calls b' = calls b
               ++ (Core <$> playback_events cfg (audio_buffer (core b))) /\
    pins b' = pins b /\ polls b' = polls b /\
    audio_buffer (core b') = audio_buffer (core b) /\
    adc_taken (core b') = adc_taken (core b).
Proof.
  intros Hw. unfold on_core. rewrite (reproduz_audio_ok cfg _ Hw).
  cbn [bind]. eexists. split; [reflexivity|].
  unfold with_core. cbn [calls pins polls core audio_buffer adc_taken].
  rewrite (new_events_app _ _ (playback_events cfg (audio_buffer (core b))))
    by reflexivity.
  repeat split.
Qed.

Lemma loop_call_record (cfg : config) (n : nat) :
  Forall loop_call (Core <$> record_events cfg n).
Proof.
  unfold record_events. rewrite !fmap_app. apply Forall_app. split.
  - apply Forall_cons. split; [loop_call_tac|apply Forall_nil_2].
  - apply Forall_app. split.
    + apply Forall_fmap, Forall_replicate. exact I.
    + apply Forall_cons. split; [loop_call_tac|apply Forall_nil_2].
Qed.

Lemma loop_call_playback (cfg : config) (b : buffer) :
  in_output_range b -> Forall loop_call (Core <$> playback_events cfg b).
Proof.
  intros Hb. unfold playback_events. rewrite !fmap_app.
  apply Forall_app. split.
  { apply Forall_cons. split; [loop_call_tac|apply Forall_nil_2]. }
  apply Forall_app. split.
  - induction Hb as [|v b Hv _ IH]; [constructor|].
    cbn [flat_map]. rewrite fmap_app. apply Forall_app. split; [|exact IH].
    unfold play_step. cbn [fmap list_fmap]. unfold R in Hv.
    repeat (apply Forall_cons; split; [loop_call_tac|]). apply Forall_nil_2.
  - cbn [fmap list_fmap].
    repeat (apply Forall_cons; split; [loop_call_tac|]). apply Forall_nil_2.
Qed.

(** One turn of the loop from a board whose array has its cells. *)
Lemma main_turn_spec (cfg : config) (b : board) :
  wf_world cfg (core b) ->
  exists b' added,
    main_turn cfg b = Ok b' /\ calls b' = calls b ++ added /\
    (in_output_range (audio_buffer (core b)) -> Forall loop_call added) /\
    pins b' = pins b /\ polls b' = (polls b + 2)%nat /\
    wf_world cfg (core b') /\
    (in_output_range (audio_buffer (core b)) ->
     in_output_range (audio_buffer (core b'))).
Proof.
  intros Hw. unfold main_turn, gpio_get, sleep_ms, sdk.
  set (a := pins b (polls b) BTN_A_PIN).
  destruct a eqn:Ea; cbn [negb bind].
  - (* button A is up *)
    cbn [pins polls calls core].
    set (p := pins b (S (polls b)) BTN_B_PIN).
    destruct p eqn:Ep; cbn [negb].
    + eexists. eexists. split; [reflexivity|]. cbn [calls pins polls core].
      split; [rewrite <- app_assoc; reflexivity|].
      split; [intros _; repeat (apply Forall_cons; split; [loop_call_tac|]); apply Forall_nil_2|].
      repeat split; try assumption; try lia; auto.
    + match goal with |- context [on_core _ ?b1] =>
        destruct (on_core_reproduz cfg b1 Hw)
          as (b' & Hrun & Hcalls & Hpins & Hpolls & Hbuf & _)
      end.
      exists b'. eexists. split; [exact Hrun|].
      rewrite Hcalls, Hpins, Hpolls, Hbuf. cbn [calls pins polls core].
      split; [rewrite <- !app_assoc; reflexivity|].
      split.
      { intros Hrange. cbn [app]. apply Forall_cons; split; [loop_call_tac|].
        apply Forall_cons; split; [loop_call_tac|]. apply Forall_cons; split; [loop_call_tac|].
        apply loop_call_playback, Hrange. }
      split; [reflexivity|]. split; [lia|].
      split; [unfold wf_world in *; rewrite Hbuf; exact Hw|auto].
  - (* button A is down: a recording *)
    match goal with |- context [on_core _ ?b1] =>
      destruct (on_core_grava cfg b1 Hw)
        as (b1' & Hrun & Hcalls & Hpins & Hpolls & Hw1 & Hrange1)
    end.
    rewrite Hrun. cbn [bind]. rewrite Hpins, Hpolls.
    cbn [pins polls calls core] in *.
    set (p := pins b (S (polls b)) BTN_B_PIN).
    destruct p eqn:Ep; cbn [negb].
    + eexists. eexists. split; [reflexivity|]. cbn [calls pins polls core].
      rewrite Hcalls.
      split; [rewrite <- !app_assoc; reflexivity|].
      split.
      { intros _. cbn [app]. apply Forall_cons; split; [loop_call_tac|].
        apply Forall_cons; split; [loop_call_tac|]. apply Forall_app. split.
        - apply loop_call_record.
        - apply Forall_cons; split; [loop_call_tac|apply Forall_nil_2]. }
      repeat split; try assumption; try lia. intros _. exact Hrange1.
    + match goal with |- context [on_core _ ?b2] =>
        assert (Hw2 : wf_world cfg (core b2)) by exact Hw1;
        destruct (on_core_reproduz cfg b2 Hw2)
          as (b' & Hrun2 & Hcalls2 & Hpins2 & Hpolls2 & Hbuf2 & _)
      end.
      exists b'. eexists. split; [exact Hrun2|].
      rewrite Hcalls2, Hpins2, Hpolls2, Hbuf2. cbn [calls pins polls core].
      rewrite Hcalls.
      split; [rewrite <- !app_assoc; reflexivity|].
      split.
      { intros _. cbn [app]. apply Forall_cons; split; [loop_call_tac|].
        apply Forall_cons; split; [loop_call_tac|]. apply Forall_app. split.
        - apply loop_call_record.
        - apply Forall_cons; split; [loop_call_tac|]. apply Forall_cons; split; [loop_call_tac|].
          apply loop_call_playback, Hrange1. }
      split; [reflexivity|]. split; [lia|].
      split; [unfold wf_world in *; rewrite Hbuf2; exact Hw1|].
      intros _. exact Hrange1.
Qed.

Lemma main_loop_spec (cfg : config) : forall (turns : nat) (b : board),
  wf_world cfg (core b) ->
  exists b' added,
    main_loop cfg turns b = Ok b' /\ calls b' = calls b ++ added /\
    (in_output_range (audio_buffer (core b)) -> Forall loop_call added) /\
    pins b' = pins b /\ polls b' = (polls b + 2 * turns)%nat /\
    wf_world cfg (core b') /\
    (in_output_range (audio_buffer (core b)) ->
     in_output_range (audio_buffer (core b'))).
Proof.
  induction turns as [|turns IH]; intros b Hw.
  - exists b, []. cbn [main_loop]. rewrite app_nil_r.
    repeat split; auto; lia.
  - cbn [main_loop].
    destruct (main_turn_spec cfg b Hw)
      as (b1 & l1 & Hturn & Hc1 & Hq1 & Hp1 & Hk1 & Hw1 & Hr1).
    rewrite Hturn. cbn [bind].
    destruct (IH b1 Hw1) as (b' & l2 & Hloop & Hc2 & Hq2 & Hp2 & Hk2 & Hw2 & Hr2).
    exists b', (l1 ++ l2). split; [exact Hloop|].
    split; [rewrite Hc2, Hc1, <- app_assoc; reflexivity|].
    split; [intros Hr; apply Forall_app; split; auto|].
    split; [congruence|]. split; [lia|]. split; [exact Hw2|auto].
Qed.

(** ** The order of the SDK calls *)

Lemma log_ok_app (ok : list sdk_call -> sdk_call -> bool) :
  forall (l1 l2 seen : list sdk_call),
    log_ok ok seen (l1 ++ l2)
    = log_ok ok seen l1 && log_ok ok (rev l1 ++ seen) l2.
Proof.
  induction l1 as [|c l1 IH]; intros l2 seen; [reflexivity|].
  cbn [app log_ok rev]. rewrite IH, <- app_assoc, andb_assoc. reflexivity.
Qed.

Lemma configured_setup : configured (rev setup_calls).
Proof. vm_compute. repeat split. Qed.

Lemma configured_step (seen : list sdk_call) (c : sdk_call) :
  configured seen -> loop_call c -> configured (c :: seen).
Proof.
  unfold configured, pwm_routed, pwm_started, pwm_wrap, gpio_initialised,
    gpio_pulled_up, gpio_dir.
  intros H Hc.
  destruct c as [| | | | | | | | | | | |e]; try destruct e;
    cbn [loop_call] in Hc; try contradiction;
    cbn [existsb find orb]; exact H.
Qed.

Lemma configured_pwm_ok (seen : list sdk_call) (c : sdk_call) :
  configured seen -> loop_call c -> pwm_call_ok seen c = true.
Proof.
  intros (H5 & H2 & _) Hc.
  destruct c as [| | | | | | | | | | | |e]; try destruct e;
    cbn [loop_call] in Hc; try contradiction; try reflexivity.
  cbn [pwm_call_ok]. destruct Hc as ([(-> & ->)|(-> & ->)] & Hl).
  - destruct H5 as (-> & -> & ->). cbn [andb]. holds.
  - destruct H2 as (-> & -> & ->). cbn [andb]. holds.
Qed.

Lemma configured_gpio_ok (seen : list sdk_call) (c : sdk_call) :
  configured seen -> loop_call c -> gpio_call_ok seen c = true.
Proof.
  intros (_ & _ & Hr & Hg & Ha & Hb) Hc.
  destruct c as [| | | | | | | | | |pin lv| |e]; try destruct e;
    cbn [loop_call] in Hc; try contradiction; try reflexivity;
    cbn [gpio_call_ok]; destruct Hc as [-> | ->].
  - destruct Ha as (-> & -> & ->). reflexivity.
  - destruct Hb as (-> & -> & ->). reflexivity.
  - destruct Hr as (-> & ->). reflexivity.
  - destruct Hg as (-> & ->). reflexivity.
Qed.

(** A check that the set-up satisfies on the loop's calls holds of every
    call the loop ever adds. *)
Lemma log_ok_loop (ok : list sdk_call -> sdk_call -> bool) :
  (forall seen c, configured seen -> loop_call c -> ok seen c = true) ->
  forall (l seen : list sdk_call),
    configured seen -> Forall loop_call l -> log_ok ok seen l = true.
Proof.
  intros Hok. induction l as [|c l IH]; intros seen Hseen Hl; [reflexivity|].
  apply Forall_cons in Hl. destruct Hl as (Hc & Hl). cbn [log_ok].
  rewrite (Hok seen c Hseen Hc). cbn [andb].
  apply IH; [apply configured_step; assumption|exact Hl].
Qed.

Lemma wf_world_setup (cfg : config) (b : board) :
  wf_world cfg (core b) -> wf_world cfg (core (main_setup b)).
Proof.
  intros Hw. unfold wf_world.
  destruct (main_setup_spec b) as (_ & _ & _ & -> & _). exact Hw.
Qed.

(** The whole of [main] for a given number of turns. *)
Lemma main_spec (cfg : config) (turns : nat) (b : board) :
  wf_world cfg (core b) ->
  exists b' added,
    main cfg turns b = Ok b' /\
    calls b' = calls b ++ setup_calls ++ added /\
    (in_output_range (audio_buffer (core b)) -> Forall loop_call added) /\
    pins b' = pins b /\ polls b' = (polls b + 2 * turns)%nat /\
    wf_world cfg (core b') /\
    (in_output_range (audio_buffer (core b)) ->
     in_output_range (audio_buffer (core b'))).
Proof.
  intros Hw. unfold main.
  destruct (main_setup_spec b) as (Hc & Hp & Hk & Hbuf & _).
  destruct (main_loop_spec cfg turns (main_setup b) (wf_world_setup cfg b Hw))
    as (b' & added & Hrun & Hc' & Hq & Hp' & Hk' & Hw' & Hr).
  exists b', added. split; [exact Hrun|].
  rewrite Hc', Hc, Hp', Hp, Hk', Hk, <- app_assoc.
  rewrite Hbuf in Hq, Hr. repeat split; assumption.
Qed.

Lemma wf_world_reset (cfg : config) (src : nat -> Z) (levels : nat -> Z -> bool) :
  0 <= MAX_SAMPLES cfg ->
  wf_world cfg (core (reset cfg src levels)) /\
  in_output_range (audio_buffer (core (reset cfg src levels))).
Proof.
  intros Hn. unfold wf_world, in_output_range, reset, power_on.
  cbn [core audio_buffer]. rewrite length_replicate. split; [lia|].
  apply Forall_replicate. unfold R. lia.
Qed.

(** From reset, every call of [main] passes a check that the set-up
    satisfies on the loop's calls and that the set-up passes itself. *)
Lemma main_log_ok (ok : list sdk_call -> sdk_call -> bool) (cfg : config)
    (src : nat -> Z) (levels : nat -> Z -> bool) (turns : nat) :
  log_ok ok [] setup_calls = true ->
  (forall seen c, configured seen -> loop_call c -> ok seen c = true) ->
  0 <= MAX_SAMPLES cfg ->
  exists b',
    main cfg turns (reset cfg src levels) = Ok b' /\
    log_ok ok [] (calls b') = true.
Proof.
  intros Hsetup Hok Hn.
  destruct (wf_world_reset cfg src levels Hn) as (Hw & Hr).
  destruct (main_spec cfg turns _ Hw)
    as (b' & added & Hrun & Hc & Hq & _).
  exists b'. split; [exact Hrun|].
  rewrite Hc. cbn [reset calls app]. rewrite log_ok_app, Hsetup.
  cbn [andb]. rewrite app_nil_r.
  apply log_ok_loop; [exact Hok|exact configured_setup|exact (Hq Hr)].
Qed.

(** Extra X17.  [main] never faults and keeps the array whole: from a board
    whose array has its [MAX_SAMPLES] cells, whatever the buttons and the ADC
    do, any number of turns of the loop ends without a fault (no index out of
    the array, no [int] overflow, no undefined float cast), each turn polls
    the buttons twice, the array still has [MAX_SAMPLES] cells, and if its
    cells were in [0, 1023] they still are. *)
Theorem main_never_faults (cfg : config) (turns : nat) (b : board) :
  wf_world cfg (core b) ->
  exists b',
    main cfg turns b = Ok b' /\
    polls b' = (polls b + 2 * turns)%nat /\
    wf_world cfg (core b') /\
    (in_output_range (audio_buffer (core b)) ->
     in_output_range (audio_buffer (core b'))).
Proof.
  intros Hw.
  destruct (main_spec cfg turns b Hw)
    as (b' & added & Hrun & _ & _ & _ & Hk & Hw' & Hr).
  exists b'. repeat split; assumption.
Qed.

Lemma main_never_faults_witness :
  exists b',
    main test_config 2
         (reset test_config (fun _ => 100) (fun k _ => Nat.ltb 1 k)) = Ok b' /\
    polls b' = 4%nat /\
    wf_world test_config (core b') /\
    (in_output_range [0; 0; 0] -> in_output_range (audio_buffer (core b'))).
Proof.
  apply (main_never_faults test_config 2
           (reset test_config (fun _ => 100) (fun k _ => Nat.ltb 1 k))).
  reflexivity.
Defined.

(** Extra X18.  [main] drives the PWM only as set up: from reset, in the
    log of SDK calls of any run of [main], every PWM level is written to a
    channel that some pin switched to the PWM function drives, on a slice
    that was initialised running, and lies between 0 and the wrap last set
    for that slice (1023). *)
Theorem main_pwm_calls_ok (cfg : config) (src : nat -> Z)
    (levels : nat -> Z -> bool) (turns : nat) :
  0 <= MAX_SAMPLES cfg ->
  exists b',
    main cfg turns (reset cfg src levels) = Ok b' /\
    log_ok pwm_call_ok [] (calls b') = true.
Proof.
  apply main_log_ok; [vm_compute; reflexivity|exact configured_pwm_ok].
Qed.

Lemma main_pwm_calls_ok_witness :
  exists b',
    main test_config 2 (reset test_config full_scale_adc (fun _ _ => false))
    = Ok b' /\
    log_ok pwm_call_ok [] (calls b') = true.
Proof.
  apply (main_pwm_calls_ok test_config full_scale_adc (fun _ _ => false) 2).
  vm_compute. discriminate.
Defined.

(** Extra X19.  [main] uses its pins only as set up: from reset, in the log
    of SDK calls of any run of [main], every [gpio_put] is on a pin that was
    initialised and last set as an output, and every [gpio_get] is on a pin
    that was initialised, last set as an input and pulled up. *)
Theorem main_gpio_calls_ok (cfg : config) (src : nat -> Z)
    (levels : nat -> Z -> bool) (turns : nat) :
  0 <= MAX_SAMPLES cfg ->
  exists b',
    main cfg turns (reset cfg src levels) = Ok b' /\
    log_ok gpio_call_ok [] (calls b') = true.
Proof.
  apply main_log_ok; [vm_compute; reflexivity|exact configured_gpio_ok].
Qed.

Lemma main_gpio_calls_ok_witness :
  exists b',
    main test_config 2 (reset test_config full_scale_adc (fun _ _ => false))
    = Ok b' /\
    log_ok gpio_call_ok [] (calls b') = true.
Proof.
  apply (main_gpio_calls_ok test_config full_scale_adc (fun _ _ => false) 2).
  vm_compute. discriminate.
Defined.

Lemma main_turn_idle (cfg : config) (b : board) :
  pins b (polls b) BTN_A_PIN = true ->
  pins b (S (polls b)) BTN_B_PIN = true ->
  exists b',
    main_turn cfg b = Ok b' /\ core b' = core b /\ pins b' = pins b /\
    polls b' = S (S (polls b)).
Proof.
  intros Ha Hb. unfold main_turn, gpio_get.
  rewrite Ha. cbn [negb bind pins polls]. rewrite Hb. cbn [negb].
  eexists. split; [reflexivity|]. repeat split.
Qed.

Lemma main_loop_idle (cfg : config) : forall (turns : nat) (b : board),
  (forall k, pins b k BTN_A_PIN = true /\ pins b k BTN_B_PIN = true) ->
  exists b', main_loop cfg turns b = Ok b' /\ core b' = core b.
Proof.
  induction turns as [|turns IH]; intros b Hup.
  - exists b. split; reflexivity.
  - cbn [main_loop].
    destruct (main_turn_idle cfg b (proj1 (Hup _)) (proj2 (Hup _)))
      as (b1 & -> & Hcore & Hpins & _).
    cbn [bind]. destruct (IH b1) as (b' & Hrun & Hcore').
    { rewrite Hpins. exact Hup. }
    exists b'. split; [exact Hrun|congruence].
Qed.

(** Extra X20.  With no button pressed [main] only sets up: if both button
    pins read high at every poll, then after any number of turns, and for
    any array and any build, [main] has not faulted, has taken no ADC
    conversion, has left the array as it was, and its only LED, PWM or tick
    events are the two zero levels [pwm_setup] writes to the buzzers. *)
Theorem main_idle (cfg : config) (turns : nat) (b : board) :
  (forall k, pins b k BTN_A_PIN = true /\ pins b k BTN_B_PIN = true) ->
  exists b',
    main cfg turns b = Ok b' /\
    audio_buffer (core b') = audio_buffer (core b) /\
    adc_taken (core b') = adc_taken (core b) /\
    trace (core b')
    = trace (core b) ++ [pwm_write BUZZER_LEFT 0; pwm_write BUZZER_RIGHT 0].
Proof.
  intros Hup. unfold main.
  destruct (main_setup_spec b) as (_ & Hpins & _ & Hbuf & _ & Hadc).
  destruct (main_loop_idle cfg turns (main_setup b)) as (b' & Hrun & Hcore).
  { rewrite Hpins. exact Hup. }
  exists b'. split; [exact Hrun|]. rewrite Hcore, Hbuf, Hadc.
  split; [reflexivity|]. split; [reflexivity|].
  unfold main_setup, pwm_setup, with_core, pwm_set_chan_level, emit.
  cbn [core trace sdk]. rewrite <- app_assoc. reflexivity.
Qed.

Lemma main_idle_witness :
  exists b',
    main test_config 3 (reset test_config full_scale_adc released) = Ok b' /\
    audio_buffer (core b') = [0; 0; 0] /\
    adc_taken (core b') = 0%nat /\
    trace (core b') = [EvPwmLevel 5 0 0; EvPwmLevel 2 1 0].
Proof.
  apply (main_idle test_config 3 (reset test_config full_scale_adc released)).
  intros k. split; reflexivity.
Defined.

(** Extra X21.  Both buttons held in one turn: [main] records first and
    plays what it has just recorded.  If the array has its [MAX_SAMPLES]
    cells, button A reads low at the turn's first poll and button B low at
    its second, the turn ends without a fault and its calls are, in order:
    the poll of A, the 200 ms debounce, one whole recording, the poll of B,
    the 200 ms debounce, and one whole playback of the array as the
    recording left it, which is in [0, 1023]. *)
Theorem main_turn_both_buttons (cfg : config) (b : board) :
  wf_world cfg (core b) ->
  pins b (polls b) BTN_A_PIN = false ->
  pins b (S (polls b)) BTN_B_PIN = false ->
  exists b',
    main_turn cfg b = Ok b' /\
    in_output_range (audio_buffer (core b')) /\
    calls b'
    = calls b
      ++ [GpioGet BTN_A_PIN false; SleepMs 200]
      ++ (Core <$> record_events cfg (length (audio_buffer (core b))))
      ++ [GpioGet BTN_B_PIN false; SleepMs 200]
      ++ (Core <$> playback_events cfg (audio_buffer (core b'))).
Proof.
  intros Hw Ha Hb. unfold main_turn, gpio_get, sleep_ms, sdk.
  rewrite Ha. cbn [negb bind].
  match goal with |- context [on_core _ ?b0] =>
    destruct (on_core_grava cfg b0 Hw)
      as (b1 & Hrun & Hcalls & Hpins & Hpolls & Hw1 & Hrange1)
  end.
  rewrite Hrun. cbn [bind]. rewrite Hpins, Hpolls.
  cbn [pins polls calls core] in *. rewrite Hb. cbn [negb].
  match goal with |- context [on_core _ ?b2] =>
    assert (Hw2 : wf_world cfg (core b2)) by exact Hw1;
    destruct (on_core_reproduz cfg b2 Hw2)
      as (b' & Hrun2 & Hcalls2 & _ & _ & Hbuf2 & _)
  end.
  exists b'. split; [exact Hrun2|].
  cbn [pins polls calls core] in *.
  rewrite Hbuf2. split; [exact Hrange1|].
  rewrite Hcalls2, Hcalls, <- !app_assoc. reflexivity.
Qed.

Lemma main_turn_both_buttons_witness :
  exists b',
    main_turn test_config
              (reset test_config full_scale_adc (fun _ _ => false)) = Ok b' /\
    in_output_range (audio_buffer (core b')) /\
    calls b'
    = [] ++ [GpioGet BTN_A_PIN false; SleepMs 200]
      ++ (Core <$> record_events test_config 3)
      ++ [GpioGet BTN_B_PIN false; SleepMs 200]
      ++ (Core <$> playback_events test_config (audio_buffer (core b'))).
Proof.
  apply (main_turn_both_buttons test_config
           (reset test_config full_scale_adc (fun _ _ => false)));
    reflexivity.
Defined.
